(** * Reusable Huffman codec ([src/compression_utils.py])

    A shallow embedding of the [HuffmanNode] and [ReusableHuffman] classes
    and of the library pieces they run on ([queue.PriorityQueue], which is
    [heapq] over a Python list), followed by the properties of the codec.

    Modelling conventions.
    - A Python [str] is a [string]; a one-character [str] is an [ascii], so
      the model covers the texts whose code points are below 256.
      Characters are compared by code point, as Python compares
      one-character strings.
    - A Python [int] is a [Z]; list indices and lengths are [nat].
    - A [dict] with character keys is a [gmap ascii _]; [d.update(e)] is the
      union in which the entries of [e] win.
    - [bytes] is a [list byte].
    - [set(corpus)] is iterated in an order Python does not fix.  The
      constructor therefore takes that order as its first argument [chars];
      [enumerates chars corpus] says that [chars] lists the distinct
      characters of [corpus], each once.
    - An operation that raises, or that waits for ever ([get] on an empty
      queue), has an [option] or [result] type. *)

From Stdlib Require Import ZArith Ascii String List Lia ZifyNat Permutation.
From Stdlib Require Import Strings.Byte.
From stdpp Require Import gmap strings list fin_maps.

Ltac Zify.zify_post_hook ::= Z.to_euclidean_division_equations.

Local Open Scope Z_scope.
Local Open Scope list_scope.

(** ** Python values *)

(** What a call yields: a value, or a raised exception. *)
Inductive PyError : Type :=
  | AttributeError (attr : string).

Inductive result (A : Type) : Type :=
  | Ok (a : A)
  | Raise (e : PyError).
Arguments Ok {A} a.
Arguments Raise {A} e.

(** The error kind of a codec used before its trie exists: reading the
    attribute [_trie_root] that [__init__] never assigned. *)
Definition UninitializedCodec (e : PyError) : Prop :=
  e = AttributeError "_trie_root".

(** [a < b] and [a > b] on one-character strings. *)
Definition str_lt (a b : ascii) : bool := (N_of_ascii a <? N_of_ascii b)%N.
Definition str_gt (a b : ascii) : bool := str_lt b a.

(** [s + c] for a character [c]. *)
Definition str_add (s : string) (c : ascii) : string := s +:+ String c EmptyString.

(** [len(s)] *)
Definition len (s : string) : nat := String.length s.

(** [corpus.count(item)] for a one-character [item]. *)
Fixpoint count (corpus : string) (item : ascii) : Z :=
  match corpus with
  | EmptyString => 0
  | String c rest => (if decide (c = item) then 1 else 0) + count rest item
  end.

(** [c in s] for a one-character [c]. *)
Definition str_in (c : ascii) (s : string) : Prop :=
  c ∈ list_ascii_of_string s.

#[local] Instance str_in_dec c s : Decision (str_in c s).
Proof. unfold str_in. apply _. Defined.

(** [chars] is a possible iteration order of [set(corpus)]: it has no
    character twice, only characters of [corpus], and all of them. *)
Definition enumerates (chars : list ascii) (corpus : string) : Prop :=
  NoDup chars
  /\ Forall (fun c => str_in c corpus) chars
  /\ Forall (fun c => c ∈ chars) (list_ascii_of_string corpus).

#[local] Instance enumerates_dec chars corpus : Decision (enumerates chars corpus).
Proof. unfold enumerates. apply _. Defined.

Definition ETB_CHAR : ascii := "023"%char.

(** ** [class HuffmanNode] *)

#[warnings="-register-all"]
Inductive HuffmanNode : Type := {
  char : ascii;
  freq : Z;
  zero_child : option HuffmanNode;
  one_child : option HuffmanNode
}.

Definition is_leaf (self : HuffmanNode) : bool :=
  match zero_child self, one_child self with
  | None, None => true
  | _, _ => false
  end.

Definition __lt__ (self other : HuffmanNode) : bool :=
  if freq self =? freq other then str_lt (char self) (char other)
  else freq self <? freq other.

Definition __eq__ (self other : HuffmanNode) : bool :=
  freq self =? freq other.

(** ** [heapq], the list algorithms under [queue.PriorityQueue]

    [heap[i] = x] on an index in range is [<[i:=x]> heap].  Every index the
    two sift loops read lies below [len(heap)]; the [None] branches of the
    lookups are there for totality only.  The [while] loops run on fuel;
    [_siftdown_fuel] and [_siftup_fuel] below show that the fuel given by
    [_siftdown] and [_siftup] is never used up. *)

Fixpoint _siftdown_loop (fuel : nat) (heap : list HuffmanNode)
    (newitem : HuffmanNode) (startpos pos : nat) : list HuffmanNode :=
  match fuel with
  | O => <[pos := newitem]> heap
  | S fuel' =>
      if (startpos <? pos)%nat then
        let parentpos := Nat.shiftr (pos - 1) 1 in
        match heap !! parentpos with
        | Some parent =>
            if __lt__ newitem parent
            then _siftdown_loop fuel' (<[pos := parent]> heap) newitem startpos parentpos
            else <[pos := newitem]> heap
        | None => heap
        end
      else <[pos := newitem]> heap
  end.

Definition _siftdown (heap : list HuffmanNode) (startpos pos : nat)
    : list HuffmanNode :=
  match heap !! pos with
  | Some newitem => _siftdown_loop pos heap newitem startpos pos
  | None => heap
  end.

(** The bubbling loop of [_siftup]: returns the list and the final [pos]. *)
Fixpoint _siftup_loop (fuel : nat) (heap : list HuffmanNode)
    (endpos pos : nat) : list HuffmanNode * nat :=
  match fuel with
  | O => (heap, pos)
  | S fuel' =>
      let childpos := (2 * pos + 1)%nat in
      if (childpos <? endpos)%nat then
        let rightpos := (childpos + 1)%nat in
        match heap !! childpos with
        | Some lchild =>
            let childpos :=
              match heap !! rightpos with
              | Some rchild =>
                  if (rightpos <? endpos)%nat && negb (__lt__ lchild rchild)
                  then rightpos else childpos
              | None => childpos
              end in
            match heap !! childpos with
            | Some child => _siftup_loop fuel' (<[pos := child]> heap) endpos childpos
            | None => (heap, pos)
            end
        | None => (heap, pos)
        end
      else (heap, pos)
  end.

Definition _siftup (heap : list HuffmanNode) (pos : nat) : list HuffmanNode :=
  let endpos := length heap in
  let startpos := pos in
  match heap !! pos with
  | Some newitem =>
      let '(heap, pos) := _siftup_loop endpos heap endpos pos in
      let heap := <[pos := newitem]> heap in
      _siftdown heap startpos pos
  | None => heap
  end.

Definition heappush (heap : list HuffmanNode) (item : HuffmanNode)
    : list HuffmanNode :=
  let heap := heap ++ [item] in
  _siftdown heap 0 (length heap - 1).

(** [None] is the [IndexError] of [heap.pop()] on an empty list. *)
Definition heappop (heap : list HuffmanNode)
    : option (HuffmanNode * list HuffmanNode) :=
  match last heap with
  | None => None
  | Some lastelt =>
      let heap := removelast heap in
      match heap !! 0%nat with
      | Some returnitem =>
          let heap := <[0%nat := lastelt]> heap in
          Some (returnitem, _siftup heap 0)
      | None => Some (lastelt, heap)
      end
  end.

(** ** [queue.PriorityQueue]

    The queue is its list [self.queue]; every method takes the list and
    returns the new one.  The queue is unbounded, so [put] never waits;
    [get] on an empty queue waits for ever, which is [None] here. *)

Definition PriorityQueue : Type := list HuffmanNode.

Definition put (q : PriorityQueue) (item : HuffmanNode) : PriorityQueue :=
  heappush q item.

Definition get (q : PriorityQueue) : option (HuffmanNode * PriorityQueue) :=
  heappop q.

Definition qsize (q : PriorityQueue) : nat := length q.

(** ** [byte_utils] *)

Definition bit_char (b : bool) : ascii := if b then "1"%char else "0"%char.

(** Modelled from the spec: [byte_utils.byte_to_bitstring], which is not
    among the sources.  It gives the 8-character bit string of a byte, most
    significant bit first. *)
Definition byte_to_bitstring (b : byte) : string :=
  let '(b0, (b1, (b2, (b3, (b4, (b5, (b6, b7))))))) := Byte.to_bits b in
  string_of_list_ascii (map bit_char [b7; b6; b5; b4; b3; b2; b1; b0]).

(** The value of a bit string read as a binary numeral, [int(s, 2)]. *)
Fixpoint int2 (acc : N) (s : string) : N :=
  match s with
  | EmptyString => acc
  | String c rest => int2 (2 * acc + (if decide (c = "1"%char) then 1 else 0))%N rest
  end.

(** Modelled from the spec: [byte_utils.bitstrings_to_bytes], which is not
    among the sources.  It turns a list of 8-character bit strings into the
    byte sequence with one byte per string, same bit order.  On other
    strings, about which the spec is silent, the model keeps the low eight
    bits of the numeral. *)
Definition bitstring_to_byte (s : string) : byte :=
  match Byte.of_N (int2 0 s mod 256)%N with
  | Some b => b
  | None => x00
  end.

Definition bitstrings_to_bytes (bitstrs : list string) : list byte :=
  map bitstring_to_byte bitstrs.

(** ** [class ReusableHuffman] *)

Record ReusableHuffman : Type := {
  _encoding_map : gmap ascii string;
  leaves : PriorityQueue;
  (** [None]: the attribute was never assigned *)
  _trie_root : option HuffmanNode
}.

(** The [while trie.qsize() > 1] loop of [grow_trie].  Each round takes two
    nodes out and puts one in, so [qsize] rounds are enough. *)
Fixpoint grow_trie_loop (fuel : nat) (trie : PriorityQueue)
    : option PriorityQueue :=
  match fuel with
  | O => None
  | S fuel' =>
      if (1 <? qsize trie)%nat then
        '(zero_item, trie) ← get trie;
        '(one_item, trie) ← get trie;
        let new_char :=
          if str_gt (char zero_item) (char one_item)
          then char one_item else char zero_item in
        let node :=
          Build_HuffmanNode new_char (freq zero_item + freq one_item)
            (Some zero_item) (Some one_item) in
        grow_trie_loop fuel' (put trie node)
      else Some trie
  end.

(** Returns the root and the queue as the call leaves it. *)
Definition grow_trie (trie : PriorityQueue)
    : option (HuffmanNode * PriorityQueue) :=
  trie ← grow_trie_loop (qsize trie) trie;
  get trie.

(** [d.update(e)] *)
Definition update (d e : gmap ascii string) : gmap ascii string := e ∪ d.

Fixpoint create_encoding_map_node (node : HuffmanNode) (byte : string)
    : gmap ascii string :=
  match node with
  | Build_HuffmanNode c _ None None => <[c := byte]> ∅
  | Build_HuffmanNode _ _ zero one =>
      let encoding_map := ∅ in
      let encoding_map :=
        update encoding_map
          match zero with
          | Some n => create_encoding_map_node n (byte +:+ "0")
          | None => ∅
          end in
      let encoding_map :=
        update encoding_map
          match one with
          | Some n => create_encoding_map_node n (byte +:+ "1")
          | None => ∅
          end in
      encoding_map
  end.

Definition create_encoding_map (node : option HuffmanNode) (byte : string)
    : gmap ascii string :=
  match node with
  | Some n => create_encoding_map_node n byte
  | None => ∅
  end.

Definition leaf (c : ascii) (f : Z) : HuffmanNode :=
  Build_HuffmanNode c f None None.

(** The queue [self.leaves] when [__init__] calls [grow_trie]: the sentinel
    leaf, then one leaf per character in the order [chars]. *)
Definition initial_leaves (chars : list ascii) (corpus : string)
    : PriorityQueue :=
  let etb_node := leaf ETB_CHAR 1 in
  let leaves := put [] etb_node in
  fold_left (fun leaves item => put leaves (leaf item (count corpus item)))
    chars leaves.

(** [ReusableHuffman(corpus)]; [None] if the constructor does not return. *)
Definition __init__ (chars : list ascii) (corpus : string)
    : option ReusableHuffman :=
  if (0 <? len corpus)%nat then
    '(root, leaves) ← grow_trie (initial_leaves chars corpus);
    Some {| _encoding_map := create_encoding_map (Some root) EmptyString;
            leaves := leaves;
            _trie_root := Some root |}
  else
    Some {| _encoding_map := <[ETB_CHAR := "0"]> ∅;
            leaves := put [] (leaf ETB_CHAR 1);
            _trie_root := None |}.

(** [copy.deepcopy] of a value is the value. *)
Definition get_encoding_map (self : ReusableHuffman) : gmap ascii string :=
  _encoding_map self.

(** The loop state of [compress_message]: [bitstr] and [final_bitstr]. *)
Definition add_bit (st : string * list string) (num : ascii)
    : string * list string :=
  let '(bitstr, final_bitstr) := st in
  let '(bitstr, final_bitstr) :=
    if (len bitstr =? 8)%nat then (EmptyString, final_bitstr ++ [bitstr])
    else (bitstr, final_bitstr) in
  (str_add bitstr num, final_bitstr).

Definition add_char (encode_map : gmap ascii string)
    (st : string * list string) (char : ascii) : string * list string :=
  match encode_map !! char with
  | Some code => fold_left add_bit (list_ascii_of_string code) st
  | None => st
  end.

(** [while len(bitstr) != 8: bitstr += '0'] *)
Fixpoint pad_loop (fuel : nat) (bitstr : string) : string :=
  match fuel with
  | O => bitstr
  | S fuel' =>
      if (len bitstr =? 8)%nat then bitstr
      else pad_loop fuel' (str_add bitstr "0"%char)
  end.

Definition compress_message (self : ReusableHuffman) (message : string)
    : list byte :=
  let encode_map := get_encoding_map self in
  let message := str_add message ETB_CHAR in
  let '(bitstr, final_bitstr) :=
    fold_left (add_char encode_map) (list_ascii_of_string message)
      (EmptyString, []) in
  let final_bitstr :=
    if (len bitstr <? 8)%nat then final_bitstr ++ [pad_loop 8 bitstr]
    else final_bitstr in
  bitstrings_to_bytes final_bitstr.

(** The first statement of the loop body of [decompress]: on a 0 bit go to
    [node.zero_child] when there is one, otherwise on a 1 bit go to
    [node.one_child] when there is one, otherwise stay. *)
Definition walk (node : HuffmanNode) (bit : ascii) : HuffmanNode :=
  match (if decide (bit = "0"%char) then zero_child node else None) with
  | Some child => child
  | None =>
      match (if decide (bit = "1"%char) then one_child node else None) with
      | Some child => child
      | None => node
      end
  end.

(** The [for bit in encoded_msg] loop of [decompress]. *)
Fixpoint decompress_loop (trie_root : HuffmanNode) (encoded_msg : string)
    (node : HuffmanNode) (decoded_msg : string) : string :=
  match encoded_msg with
  | EmptyString => decoded_msg
  | String bit rest =>
      let node := walk node bit in
      if is_leaf node then
        if decide (char node = ETB_CHAR) then decoded_msg
        else decompress_loop trie_root rest trie_root
               (str_add decoded_msg (char node))
      else decompress_loop trie_root rest node decoded_msg
  end.

Definition decompress (self : ReusableHuffman) (compressed_msg : list byte)
    : result string :=
  let encoded_msg :=
    fold_left (fun encoded_msg byte => encoded_msg +:+ byte_to_bitstring byte)
      compressed_msg EmptyString in
  match _trie_root self with
  | None => Raise (AttributeError "_trie_root")
  | Some trie_root =>
      Ok (decompress_loop trie_root encoded_msg trie_root EmptyString)
  end.

(** * Notions used in the statements *)

(** ** Bit strings and tries *)

(** [is_prefix p s]: [s.startswith(p)] *)
Definition is_prefix (p s : string) : Prop := exists t, s = p +:+ t.

(** [P] holds of the child, if there is one. *)
Definition on_child (P : HuffmanNode -> Prop) (child : option HuffmanNode)
    : Prop :=
  match child with
  | Some n => P n
  | None => True
  end.

(** Induction over a trie: the property holds of a node when it holds of
    the children the node has. *)
Definition HuffmanNode_rect' (P : HuffmanNode -> Prop)
    (step : forall c f zero one,
        on_child P zero -> on_child P one -> P (Build_HuffmanNode c f zero one))
    : forall n, P n :=
  fix go (n : HuffmanNode) : P n :=
    match n with
    | Build_HuffmanNode c f zero one =>
        step c f zero one
          (match zero with Some z => go z | None => I end)
          (match one with Some o => go o | None => I end)
    end.

(** The leaves under a node in the order [create_encoding_map] visits them,
    each with the bit string the traversal has built when it reaches it. *)
Fixpoint leaf_paths (node : HuffmanNode) (byte : string)
    : list (HuffmanNode * string) :=
  match node with
  | Build_HuffmanNode c f None None => [(leaf c f, byte)]
  | Build_HuffmanNode _ _ zero one =>
      match zero with
      | Some n => leaf_paths n (byte +:+ "0")
      | None => []
      end ++
      match one with
      | Some n => leaf_paths n (byte +:+ "1")
      | None => []
      end
  end.

(** [leaf_paths] of the child, if there is one. *)
Definition child_paths (child : option HuffmanNode) (byte : string)
    : list (HuffmanNode * string) :=
  match child with
  | Some n => leaf_paths n byte
  | None => []
  end.

(** Strictly binary: a node is a leaf or has both children, and so below. *)
Fixpoint proper (node : HuffmanNode) : Prop :=
  match node with
  | Build_HuffmanNode _ _ None None => True
  | Build_HuffmanNode _ _ (Some zero) (Some one) => proper zero /\ proper one
  | _ => False
  end.

(** The leaves themselves, in the same order. *)
Definition leaves_of (node : HuffmanNode) : list HuffmanNode :=
  (leaf_paths node EmptyString).*1.

(** [e] is a leaf labelled with the character [c], with its bit string. *)
Definition labelled (c : ascii) (e : HuffmanNode * string) : Prop :=
  char e.1 = c.

#[local] Instance labelled_dec c e : Decision (labelled c e).
Proof. unfold labelled. apply _. Defined.

(** ** Queues, leaves and the heap invariant *)

(** All leaves under the nodes of a queue. *)
Definition queue_leaves (q : PriorityQueue) : list HuffmanNode :=
  q ≫= leaves_of.

(** The leaves that [__init__] puts into the queue. *)
Definition corpus_leaves (chars : list ascii) (corpus : string)
    : list HuffmanNode :=
  leaf ETB_CHAR 1 :: ((fun item => leaf item (count corpus item)) <$> chars).

(** [le_node a b]: not [b < a]. *)
Definition le_node (a b : HuffmanNode) : Prop := __lt__ b a = false.

(** Index of the parent of position [i] in the heap. *)
Definition parent (i : nat) : nat := ((i - 1) / 2)%nat.

(** The heap invariant of [heapq]: no node is smaller than its parent. *)
Definition heap_ordered (heap : list HuffmanNode) : Prop :=
  forall i x p, (0 < i)%nat ->
    heap !! i = Some x -> heap !! parent i = Some p -> le_node p x.

(** The invariant with one position [pos] exempt from the comparison with
    its parent, the children of [pos] being no smaller than that parent. *)
Definition ordered_but (pos : nat) (heap : list HuffmanNode) : Prop :=
  (forall i x p, (0 < i)%nat -> i <> pos ->
     heap !! i = Some x -> heap !! parent i = Some p -> le_node p x)
  /\ (forall c x g, (0 < pos)%nat -> (0 < c)%nat -> parent c = pos ->
        heap !! c = Some x -> heap !! parent pos = Some g -> le_node g x).

(** The invariant with a hole at [pos], whose content is not compared. *)
Definition ordered_hole (pos : nat) (heap : list HuffmanNode) : Prop :=
  (forall i x p, (0 < i)%nat -> i <> pos -> parent i <> pos ->
     heap !! i = Some x -> heap !! parent i = Some p -> le_node p x)
  /\ (forall c x g, (0 < pos)%nat -> (0 < c)%nat -> parent c = pos ->
        heap !! c = Some x -> heap !! parent pos = Some g -> le_node g x).

(** ** Encoding maps and the wire format *)

(** No codeword of the map is a prefix of the codeword of another
    character. *)
Definition prefix_code (m : gmap ascii string) : Prop :=
  forall c1 c2 w1 w2, c1 <> c2 ->
    m !! c1 = Some w1 -> m !! c2 = Some w2 -> ~ is_prefix w1 w2.

(** The message without the characters that have no entry in the map. *)
Fixpoint known (encode_map : gmap ascii string) (message : string) : string :=
  match message with
  | EmptyString => EmptyString
  | String c rest =>
      match encode_map !! c with
      | Some _ => String c (known encode_map rest)
      | None => known encode_map rest
      end
  end.

(** The bits of a byte sequence, most significant bit of each byte first. *)
Definition bit_content (bytes : list byte) : string :=
  fold_left (fun encoded_msg byte => encoded_msg +:+ byte_to_bitstring byte)
    bytes EmptyString.

(** The codewords of the characters of [message], in order, followed by the
    codeword of the sentinel. *)
Definition codeword (encode_map : gmap ascii string) (c : ascii) : string :=
  default EmptyString (encode_map !! c).

Fixpoint codewords (encode_map : gmap ascii string) (message : string) : string :=
  match message with
  | EmptyString => EmptyString
  | String c rest => codeword encode_map c +:+ codewords encode_map rest
  end.

Definition codeword_stream (encode_map : gmap ascii string) (message : string)
    : string :=
  codewords encode_map message +:+ codeword encode_map ETB_CHAR.

(** [n] padding bits *)
Fixpoint zeros (n : nat) : string :=
  match n with
  | O => EmptyString
  | S n' => String "0"%char (zeros n')
  end.

(** The wire format of the spec: the codeword stream, then 0 to 7 zero
    bits. *)
Definition wire_format (self : ReusableHuffman) (message : string) : Prop :=
  exists n, (n <= 7)%nat
    /\ bit_content (compress_message self message)
       = codeword_stream (get_encoding_map self) message +:+ zeros n.

(** [n] is labelled with the character [c]. *)
Definition has_char (c : ascii) (n : HuffmanNode) : Prop := char n = c.

#[local] Instance has_char_dec c n : Decision (has_char c n).
Proof. unfold has_char. apply _. Defined.

(** ** Bits written by [compress_message] *)

(** [s] is made of the characters 0 and 1. *)
Definition is_bits (s : string) : Prop :=
  Forall (fun c => c = "0"%char \/ c = "1"%char) (list_ascii_of_string s).

(** [''.join(l)] *)
Definition concat_str (l : list string) : string :=
  foldr String.append EmptyString l.

(** Length of [bitstr] after the loop of [compress_message] has seen
    [total] bits. *)
Definition tail_len (total : nat) : nat :=
  match total with
  | O => O
  | S t => (t mod 8 + 1)%nat
  end.

(** ** The shape of a grown trie *)

(** The node that one round of [grow_trie] makes of the two nodes it took
    out of the queue. *)
Definition merge (zero_item one_item : HuffmanNode) : HuffmanNode :=
  Build_HuffmanNode
    (if str_gt (char zero_item) (char one_item)
     then char one_item else char zero_item)
    (freq zero_item + freq one_item)
    (Some zero_item) (Some one_item).

(** [P] holds of the node and of every node below it. *)
Fixpoint every_node (P : HuffmanNode -> Prop) (node : HuffmanNode) : Prop :=
  match node with
  | Build_HuffmanNode c f zero one =>
      P (Build_HuffmanNode c f zero one)
      /\ match zero with Some z => every_node P z | None => True end
      /\ match one with Some o => every_node P o | None => True end
  end.

(** What [grow_trie] makes true of a node: it is a leaf, or it has two
    children, its frequency is the sum of theirs, its character is the
    smaller of theirs, and its [one_child] is not [<] its [zero_child]. *)
Definition merged (node : HuffmanNode) : Prop :=
  match zero_child node, one_child node with
  | None, None => True
  | Some z, Some o =>
      freq node = freq z + freq o
      /\ char node = (if str_gt (char z) (char o) then char o else char z)
      /\ __lt__ o z = false
  | _, _ => False
  end.

(** [sum(n.freq for n in l)] *)
Definition sum_freq (l : list HuffmanNode) : Z :=
  foldr (fun n acc => freq n + acc) 0 l.

(** The part of a message before its first sentinel character. *)
Fixpoint before_sentinel (message : string) : string :=
  match message with
  | EmptyString => EmptyString
  | String c rest =>
      if decide (c = ETB_CHAR) then EmptyString
      else String c (before_sentinel rest)
  end.

(** What [decompress] reads back from the codewords of a message: the
    characters with an entry, up to the first sentinel. *)
Definition decoded (encode_map : gmap ascii string) (message : string) : string :=
  known encode_map (before_sentinel message).

(** ** Example corpora *)

Definition ABBBCC_trie : HuffmanNode :=
  Build_HuffmanNode ETB_CHAR 7
    (Some (leaf "B" 3))
    (Some (Build_HuffmanNode ETB_CHAR 4
             (Some (Build_HuffmanNode ETB_CHAR 2
                      (Some (leaf ETB_CHAR 1))
                      (Some (leaf "A" 1))))
             (Some (leaf "C" 2)))).

Definition ABBBCC_codec : ReusableHuffman :=
  {| _encoding_map := create_encoding_map_node ABBBCC_trie EmptyString;
     leaves := [];
     _trie_root := Some ABBBCC_trie |}.

(** A corpus with the sentinel in it, twice. *)
Definition sentinel_corpus : string :=
  String ETB_CHAR (String ETB_CHAR "ABC").

(** * Properties *)

(** ** Lists updated in place *)

Lemma shiftr_1 (n : nat) : Nat.shiftr n 1 = (n / 2)%nat.
Proof. simpl. apply Nat.div2_div. Qed.

(** Writing [b] where [a] was, after a copy of [a] went to [j], permutes
    the list that has [b] at [j]. *)
Lemma insert_move_perm {A} (l : list A) (i j : nat) (a b : A) :
  l !! i = Some a -> (j < length l)%nat ->
  <[i := b]> (<[j := a]> l) ≡ₚ <[j := b]> l.
Proof.
  intros Hi Hj. destruct (decide (i = j)) as [->|Hne].
  - by rewrite list_insert_insert_eq.
  - rewrite <- (list_insert_insert_eq l j a b).
    apply Permutation_insert_swap.
    + by apply list_lookup_insert_eq.
    + by rewrite list_lookup_insert_ne.
Qed.

(** ** The sift loops: fuel, length, contents *)

Section sift.
Implicit Types (heap : list HuffmanNode) (newitem : HuffmanNode).

(** The loop of [_siftdown] moves [pos] to its parent in every round: any
    fuel from [pos] on gives the same result. *)
Lemma _siftdown_fuel f1 f2 heap newitem startpos pos :
  (pos <= f1)%nat -> (pos <= f2)%nat ->
  _siftdown_loop f1 heap newitem startpos pos
  = _siftdown_loop f2 heap newitem startpos pos.
Proof.
  revert f2 heap pos.
  induction f1 as [|f1 IH]; intros [|f2] heap pos H1 H2; simpl; try done.
  - replace (startpos <? pos)%nat with false; [done|].
    symmetry; apply Nat.ltb_ge; lia.
  - replace (startpos <? pos)%nat with false; [done|].
    symmetry; apply Nat.ltb_ge; lia.
  - destruct (startpos <? pos)%nat eqn:Hlt; [|done].
    apply Nat.ltb_lt in Hlt.
    destruct (heap !! _) as [parent|]; [|done].
    destruct (__lt__ newitem parent); [|done].
    apply IH; rewrite Nat.div2_div; lia.
Qed.

(** The loop of [_siftup] moves [pos] to a child below [endpos] in every
    round: any fuel from [endpos - pos] on gives the same result. *)
Lemma _siftup_fuel f1 f2 heap endpos pos :
  (endpos - pos <= f1)%nat -> (endpos - pos <= f2)%nat ->
  _siftup_loop f1 heap endpos pos = _siftup_loop f2 heap endpos pos.
Proof.
  revert f2 heap pos.
  induction f1 as [|f1 IH]; intros [|f2] heap pos H1 H2; try done.
  - cbn [_siftup_loop].
    replace (2 * pos + 1 <? endpos)%nat with false; [done|].
    symmetry; apply Nat.ltb_ge; lia.
  - cbn [_siftup_loop].
    replace (2 * pos + 1 <? endpos)%nat with false; [done|].
    symmetry; apply Nat.ltb_ge; lia.
  - cbn [_siftup_loop].
    destruct (2 * pos + 1 <? endpos)%nat eqn:Hlt; [|done].
    apply Nat.ltb_lt in Hlt.
    destruct (heap !! (2 * pos + 1)%nat) as [lchild|]; [|done].
    destruct (heap !! (2 * pos + 1 + 1)%nat) as [rchild|].
    + destruct ((2 * pos + 1 + 1 <? endpos)%nat && negb (__lt__ lchild rchild))
        eqn:Hr.
      * apply andb_true_iff in Hr as [Hr _]. apply Nat.ltb_lt in Hr.
        destruct (heap !! _) as [child|]; [|done]. apply IH; lia.
      * destruct (heap !! _) as [child|]; [|done]. apply IH; lia.
    + destruct (heap !! _) as [child|]; [|done]. apply IH; lia.
Qed.

(** The sift loops only move nodes around. *)
Lemma _siftdown_loop_perm fuel heap newitem startpos pos :
  (pos < length heap)%nat ->
  _siftdown_loop fuel heap newitem startpos pos ≡ₚ <[pos := newitem]> heap.
Proof.
  revert heap pos. induction fuel as [|fuel IH]; intros heap pos Hpos; [done|].
  cbn [_siftdown_loop]. rewrite shiftr_1.
  destruct (startpos <? pos)%nat eqn:Hlt; [|done].
  apply Nat.ltb_lt in Hlt.
  destruct (lookup_lt_is_Some_2 heap ((pos - 1) / 2)) as [parent Hp]; [lia|].
  rewrite Hp. destruct (__lt__ newitem parent); [|done].
  rewrite IH by (rewrite length_insert; lia).
  apply insert_move_perm; [done|lia].
Qed.

Lemma _siftdown_perm heap startpos pos :
  _siftdown heap startpos pos ≡ₚ heap.
Proof.
  unfold _siftdown. destruct (heap !! pos) as [newitem|] eqn:Hp; [|done].
  rewrite _siftdown_loop_perm by (by eapply lookup_lt_Some).
  by rewrite list_insert_id.
Qed.

Lemma _siftup_loop_perm fuel heap pos heap' pos' :
  (pos < length heap)%nat ->
  _siftup_loop fuel heap (length heap) pos = (heap', pos') ->
  (pos' < length heap')%nat /\ length heap' = length heap /\
  forall x, <[pos' := x]> heap' ≡ₚ <[pos := x]> heap.
Proof.
  revert heap pos.
  induction fuel as [|fuel IH]; intros heap pos Hpos Hloop.
  { by injection Hloop as <- <-. }
  cbn [_siftup_loop] in Hloop.
  destruct (2 * pos + 1 <? length heap)%nat eqn:Hlt;
    [|by injection Hloop as <- <-].
  apply Nat.ltb_lt in Hlt.
  destruct (heap !! (2 * pos + 1)%nat) as [lchild|] eqn:Hl;
    [|by injection Hloop as <- <-].
  set (childpos :=
         match heap !! (2 * pos + 1 + 1)%nat with
         | Some rchild =>
             if (2 * pos + 1 + 1 <? length heap)%nat
                && negb (__lt__ lchild rchild)
             then (2 * pos + 1 + 1)%nat else (2 * pos + 1)%nat
         | None => (2 * pos + 1)%nat
         end) in *.
  destruct (heap !! childpos) as [child|] eqn:Hc;
    [|by injection Hloop as <- <-].
  pose proof (lookup_lt_Some _ _ _ Hc) as Hclt.
  rewrite <- (length_insert heap pos child) in Hloop at 1.
  apply IH in Hloop as (Hp' & Hlen & Hperm); [|by rewrite length_insert].
  rewrite length_insert in Hlen. split_and!; [done..|].
  intros x. rewrite Hperm. by apply insert_move_perm.
Qed.

Lemma _siftup_perm heap pos : _siftup heap pos ≡ₚ heap.
Proof.
  unfold _siftup. destruct (heap !! pos) as [newitem|] eqn:Hp; [|done].
  destruct (_siftup_loop _ _ _ _) as [heap' pos'] eqn:Hloop.
  apply _siftup_loop_perm in Hloop as (Hp' & Hlen & Hperm);
    [|by eapply lookup_lt_Some].
  rewrite _siftdown_perm, Hperm. by rewrite list_insert_id.
Qed.

Lemma heappush_perm heap item : heappush heap item ≡ₚ item :: heap.
Proof.
  unfold heappush. rewrite _siftdown_perm.
  symmetry. apply Permutation_cons_append.
Qed.

Lemma heappop_perm heap x heap' :
  heappop heap = Some (x, heap') -> heap ≡ₚ x :: heap'.
Proof.
  unfold heappop. destruct (last heap) as [lastelt|] eqn:Hlast; [|done].
  apply last_Some in Hlast as [front ->]. rewrite removelast_last.
  destruct front as [|returnitem rest]; simpl.
  - by intros [= <- <-].
  - intros [= <- <-]. rewrite _siftup_perm.
    rewrite <- Permutation_cons_append. done.
Qed.

Lemma heappop_is_Some heap :
  heap <> [] -> exists x heap', heappop heap = Some (x, heap').
Proof.
  intros Hne. unfold heappop.
  destruct (last heap) as [lastelt|] eqn:Hlast.
  - destruct (removelast heap !! 0%nat); eauto.
  - by apply last_None in Hlast.
Qed.
End sift.

(** ** Strings *)

Lemma str_app_cons (c : ascii) (s t : string) :
  String c s +:+ t = String c (s +:+ t).
Proof. reflexivity. Qed.

Lemma str_app_nil_l (s : string) : EmptyString +:+ s = s.
Proof. reflexivity. Qed.

Lemma str_app_assoc (s t u : string) : (s +:+ t) +:+ u = s +:+ (t +:+ u).
Proof.
  induction s as [|c s IH]; [done|]. rewrite !str_app_cons. by f_equal.
Qed.

Lemma str_app_nil_r (s : string) : s +:+ EmptyString = s.
Proof.
  induction s as [|c s IH]; [done|]. rewrite str_app_cons. by f_equal.
Qed.

Lemma is_prefix_refl s : is_prefix s s.
Proof. exists EmptyString. by rewrite str_app_nil_r. Qed.

Lemma is_prefix_app_l p s t : is_prefix (p +:+ s) t -> is_prefix p t.
Proof. intros [u ->]. exists (s +:+ u). apply str_app_assoc. Qed.

Lemma is_prefix_branch b s :
  ~ (is_prefix (b +:+ "0") s /\ is_prefix (b +:+ "1") s).
Proof.
  intros [[u ->] [v Hv]]. rewrite !str_app_assoc in Hv.
  by apply String.app_inj in Hv.
Qed.

(** ** Tries *)

Lemma leaf_paths_unfold c f zero one byte :
  leaf_paths (Build_HuffmanNode c f zero one) byte
  = if is_leaf (Build_HuffmanNode c f zero one) then [(leaf c f, byte)]
    else child_paths zero (byte +:+ "0") ++ child_paths one (byte +:+ "1").
Proof. by destruct zero, one. Qed.

Lemma create_encoding_map_unfold c f zero one byte :
  create_encoding_map_node (Build_HuffmanNode c f zero one) byte
  = if is_leaf (Build_HuffmanNode c f zero one) then {[c := byte]}
    else create_encoding_map one (byte +:+ "1")
         ∪ create_encoding_map zero (byte +:+ "0").
Proof.
  destruct zero, one; simpl; unfold update;
    rewrite ?(right_id_L ∅ (∪)), ?(left_id_L ∅ (∪)); done.
Qed.

Lemma leaf_paths_fst node byte byte' :
  (leaf_paths node byte).*1 = (leaf_paths node byte').*1.
Proof.
  revert byte byte'. induction node as [c f zero one IHz IHo] using HuffmanNode_rect'.
  intros byte byte'. rewrite !leaf_paths_unfold.
  destruct (is_leaf _); [done|]. rewrite !fmap_app.
  f_equal; [destruct zero|destruct one]; simpl in *; auto.
Qed.

Lemma leaves_of_leaf c f : leaves_of (leaf c f) = [leaf c f].
Proof. done. Qed.

Lemma leaves_of_merge c f zero one :
  leaves_of (Build_HuffmanNode c f (Some zero) (Some one))
  = leaves_of zero ++ leaves_of one.
Proof.
  unfold leaves_of. rewrite leaf_paths_unfold. simpl. rewrite fmap_app.
  f_equal; apply leaf_paths_fst.
Qed.

Lemma leaf_paths_is_leaf node byte e :
  e ∈ leaf_paths node byte -> exists c f, e.1 = leaf c f.
Proof.
  revert byte. induction node as [c f zero one IHz IHo] using HuffmanNode_rect'.
  intros byte. rewrite leaf_paths_unfold. destruct (is_leaf _).
  - intros ->%list_elem_of_singleton. eauto.
  - intros [H|H]%elem_of_app; [destruct zero|destruct one]; simpl in *;
      eauto; by apply elem_of_nil in H.
Qed.

(** Every bit string in [leaf_paths node byte] starts with [byte]. *)
Lemma leaf_paths_prefix node byte e :
  e ∈ leaf_paths node byte -> is_prefix byte e.2.
Proof.
  revert byte. induction node as [c f zero one IHz IHo] using HuffmanNode_rect'.
  intros byte. rewrite leaf_paths_unfold. destruct (is_leaf _).
  - intros ->%list_elem_of_singleton. apply is_prefix_refl.
  - intros [H|H]%elem_of_app; [destruct zero|destruct one]; simpl in *;
      try (by apply elem_of_nil in H);
      eapply is_prefix_app_l; eauto.
Qed.

(** Two leaves of a trie never have one bit string a prefix of the other:
    positions [i] and [j] of the traversal with such strings are the same
    position. *)
Lemma leaf_paths_prefix_free node byte i j e1 e2 :
  leaf_paths node byte !! i = Some e1 ->
  leaf_paths node byte !! j = Some e2 ->
  is_prefix e1.2 e2.2 -> i = j.
Proof.
  revert byte i j.
  induction node as [c f zero one IHz IHo] using HuffmanNode_rect'.
  intros byte i j. rewrite leaf_paths_unfold. destruct (is_leaf _).
  { intros Hi%lookup_lt_Some Hj%lookup_lt_Some _. simpl in *. lia. }
  intros Hi Hj Hpre.
  apply lookup_app_Some in Hi as [Hi|[Hil Hi]];
    apply lookup_app_Some in Hj as [Hj|[Hjl Hj]].
  - destruct zero as [z|]; simpl in *; [eauto|done].
  - exfalso. apply (is_prefix_branch byte e2.2). split.
    + destruct Hpre as [t ->].
      destruct zero as [z|]; simpl in Hi; [|done].
      apply list_elem_of_lookup_2, leaf_paths_prefix in Hi as [u ->].
      exists (u +:+ t). by rewrite !str_app_assoc.
    + destruct one as [o|]; simpl in Hj; [|done].
      by apply list_elem_of_lookup_2, leaf_paths_prefix in Hj.
  - exfalso. apply (is_prefix_branch byte e2.2). split.
    + destruct zero as [z|]; simpl in Hj; [|done].
      by apply list_elem_of_lookup_2, leaf_paths_prefix in Hj.
    + destruct Hpre as [t ->].
      destruct one as [o|]; simpl in Hi; [|done].
      apply list_elem_of_lookup_2, leaf_paths_prefix in Hi as [u ->].
      exists (u +:+ t). by rewrite !str_app_assoc.
  - destruct one as [o|]; simpl in *; [|done].
    pose proof (IHo _ _ _ Hi Hj Hpre). lia.
Qed.

(** The entry of a character in the encoding map is the bit string of the
    last leaf with that character in the traversal. *)
Lemma create_encoding_map_lookup node byte c :
  create_encoding_map_node node byte !! c
  = snd <$> last (filter (labelled c) (leaf_paths node byte)).
Proof.
  revert byte. induction node as [k f zero one IHz IHo] using HuffmanNode_rect'.
  intros byte. rewrite leaf_paths_unfold, create_encoding_map_unfold.
  destruct (is_leaf _).
  - rewrite filter_cons, filter_nil. unfold labelled at 1. simpl.
    destruct (decide (k = c)) as [->|Hne].
    + by rewrite lookup_singleton_eq.
    + by rewrite lookup_singleton_ne.
  - rewrite filter_app, last_app, lookup_union.
    assert (Hc : forall child b, on_child (fun n => forall byte,
                create_encoding_map_node n byte !! c
                = snd <$> last (filter (labelled c) (leaf_paths n byte))) child ->
              create_encoding_map child b !! c
              = snd <$> last (filter (labelled c) (child_paths child b))).
    { intros [n|] b Hn; simpl in *; [apply Hn|by rewrite lookup_empty]. }
    rewrite (Hc one), (Hc zero) by done.
    destruct (last (filter _ (child_paths one _))) as [e|]; simpl.
    + by destruct (snd <$> last _).
    + by destruct (snd <$> last _).
Qed.

(** ** Growing the trie *)

#[local] Instance queue_leaves_proper : Proper ((≡ₚ) ==> (≡ₚ)) queue_leaves.
Proof. intros q1 q2 Hq. unfold queue_leaves. by rewrite Hq. Qed.

Lemma put_perm q item : put q item ≡ₚ item :: q.
Proof. apply heappush_perm. Qed.

Lemma get_perm q x q' : get q = Some (x, q') -> q ≡ₚ x :: q'.
Proof. apply heappop_perm. Qed.

Lemma get_is_Some q : q <> [] -> exists x q', get q = Some (x, q').
Proof. apply heappop_is_Some. Qed.

(** The loop of [grow_trie] ends, with one node in the queue, and that node
    has under it the leaves the queue started with. *)
Lemma grow_trie_loop_leaves fuel (q : PriorityQueue) :
  (1 <= qsize q <= fuel)%nat ->
  exists root, grow_trie_loop fuel q = Some [root]
               /\ leaves_of root ≡ₚ queue_leaves q.
Proof.
  revert q. induction fuel as [|fuel IH]; intros q [Hq Hfuel]; [lia|].
  cbn [grow_trie_loop]. unfold qsize in *.
  destruct (1 <? length q)%nat eqn:Hlt.
  - apply Nat.ltb_lt in Hlt.
    destruct (get_is_Some q) as (zero_item & q1 & Hget1).
    { intros ->. simpl in Hlt. lia. }
    pose proof (get_perm _ _ _ Hget1) as Hp1.
    destruct (get_is_Some q1) as (one_item & q2 & Hget2).
    { intros ->. apply Permutation_length in Hp1. simpl in Hp1. lia. }
    pose proof (get_perm _ _ _ Hget2) as Hp2.
    rewrite Hget1. simpl. rewrite Hget2. simpl.
    set (node := Build_HuffmanNode _ _ _ _).
    destruct (IH (put q2 node)) as (root & Hloop & Hleaves).
    { rewrite (Permutation_length (put_perm q2 node)).
      apply Permutation_length in Hp1, Hp2. simpl in *. lia. }
    exists root. split; [done|].
    rewrite Hleaves. unfold queue_leaves.
    rewrite put_perm, Hp1, Hp2. simpl.
    unfold node. by rewrite leaves_of_merge, (assoc_L (++)).
  - apply Nat.ltb_ge in Hlt.
    destruct q as [|root [|??]]; simpl in *; try lia.
    exists root. split; [done|].
    unfold queue_leaves. simpl. by rewrite (right_id_L [] (++)).
Qed.

Lemma grow_trie_leaves (q : PriorityQueue) :
  q <> [] ->
  exists root, grow_trie q = Some (root, [])
               /\ leaves_of root ≡ₚ queue_leaves q.
Proof.
  intros Hq. destruct (grow_trie_loop_leaves (qsize q) q) as (root & Hloop & Hl).
  { unfold qsize. destruct q; simpl; [done|lia]. }
  exists root. split; [|done]. unfold grow_trie. by rewrite Hloop.
Qed.

(** ** The constructor *)

Lemma fold_put_perm (mk : ascii -> HuffmanNode) chars (q : PriorityQueue) :
  fold_left (fun leaves item => put leaves (mk item)) chars q ≡ₚ q ++ (mk <$> chars).
Proof.
  revert q. induction chars as [|c chars IH]; intros q; cbn [fold_left].
  - by rewrite fmap_nil, app_nil_r.
  - rewrite IH, put_perm, fmap_cons. apply Permutation_middle.
Qed.

Lemma initial_leaves_perm chars corpus :
  initial_leaves chars corpus ≡ₚ corpus_leaves chars corpus.
Proof. unfold initial_leaves. by rewrite fold_put_perm. Qed.

Lemma queue_leaves_corpus_leaves chars corpus :
  queue_leaves (corpus_leaves chars corpus) = corpus_leaves chars corpus.
Proof.
  unfold corpus_leaves, queue_leaves. simpl. f_equal.
  induction chars as [|c chars IH]; [done|].
  rewrite fmap_cons. simpl. by f_equal.
Qed.

Lemma len_pos (s : string) : (0 <? len s)%nat = true <-> s <> EmptyString.
Proof. destruct s; simpl; split; done. Qed.

(** On a corpus that is not empty, [__init__] returns a codec that holds the
    grown trie and the map read off it. *)
Lemma init_nonempty chars corpus :
  corpus <> EmptyString ->
  exists root,
    grow_trie (initial_leaves chars corpus) = Some (root, [])
    /\ leaves_of root ≡ₚ corpus_leaves chars corpus
    /\ __init__ chars corpus
       = Some {| _encoding_map := create_encoding_map_node root EmptyString;
                 leaves := [];
                 _trie_root := Some root |}.
Proof.
  intros Hne. destruct (grow_trie_leaves (initial_leaves chars corpus))
    as (root & Hgrow & Hleaves).
  { intros Hnil. pose proof (initial_leaves_perm chars corpus) as Hp.
    rewrite Hnil in Hp. by apply Permutation_nil_cons in Hp. }
  exists root. split_and!; [done| |].
  - by rewrite Hleaves, initial_leaves_perm, queue_leaves_corpus_leaves.
  - unfold __init__. apply len_pos in Hne. rewrite Hne, Hgrow. done.
Qed.

Lemma init_empty chars :
  __init__ chars EmptyString
  = Some {| _encoding_map := {[ETB_CHAR := "0"]};
            leaves := [leaf ETB_CHAR 1];
            _trie_root := None |}.
Proof. reflexivity. Qed.

(** The constructor always returns. *)
Lemma init_total chars corpus : is_Some (__init__ chars corpus).
Proof.
  destruct (decide (corpus = EmptyString)) as [->|Hne].
  - by rewrite init_empty.
  - destruct (init_nonempty chars corpus Hne) as (root & _ & _ & ->). done.
Qed.

(** ** The order of the nodes and the heap invariant *)

Lemma lt_spec a b :
  __lt__ a b = true <->
  freq a < freq b
  \/ (freq a = freq b /\ (N_of_ascii (char a) < N_of_ascii (char b))%N).
Proof.
  unfold __lt__, str_lt. destruct (Z.eqb_spec (freq a) (freq b)).
  - rewrite N.ltb_lt. lia.
  - rewrite Z.ltb_lt. lia.
Qed.

Lemma le_spec a b :
  le_node a b <->
  freq a < freq b
  \/ (freq a = freq b /\ (N_of_ascii (char a) <= N_of_ascii (char b))%N).
Proof. unfold le_node. rewrite <- not_true_iff_false, lt_spec. lia. Qed.

Lemma le_node_trans a b c : le_node a b -> le_node b c -> le_node a c.
Proof. rewrite !le_spec. lia. Qed.

Lemma lt_le_node a b : __lt__ a b = true -> le_node a b.
Proof. rewrite lt_spec, le_spec. lia. Qed.

Lemma le_node_total a b : le_node a b \/ le_node b a.
Proof. rewrite !le_spec. lia. Qed.

(** Nodes with different characters are strictly ordered, one way or the
    other. *)
Lemma le_node_antisym_char a b : le_node a b -> le_node b a -> char a = char b.
Proof.
  rewrite !le_spec. intros H1 H2.
  rewrite <- (ascii_N_embedding (char a)), <- (ascii_N_embedding (char b)).
  f_equal. lia.
Qed.

Section heap_order.
Implicit Types (heap : list HuffmanNode) (newitem x y p : HuffmanNode).

Lemma heap_ordered_nil : heap_ordered [].
Proof. intros i x p _ Hi. done. Qed.

(** The root of a heap is a least node of it. *)
Lemma heap_ordered_root heap r :
  heap_ordered heap -> heap !! 0%nat = Some r ->
  forall y, y ∈ heap -> le_node r y.
Proof.
  intros Hheap Hr y [i Hi]%list_elem_of_lookup. revert y Hi.
  induction i as [i IH] using lt_wf_ind. intros y Hi.
  destruct (decide (i = 0)%nat) as [->|Hpos].
  - rewrite Hr in Hi. injection Hi as <-. apply le_spec. lia.
  - destruct (lookup_lt_is_Some_2 heap (parent i)) as [p Hp].
    { apply lookup_lt_Some in Hi. unfold parent. lia. }
    apply le_node_trans with p.
    + apply (IH (parent i)); [unfold parent; lia|done].
    + apply (Hheap i); [lia|done..].
Qed.

Lemma ordered_but_root heap : ordered_but 0 heap -> heap_ordered heap.
Proof. intros [H1 _] i x p Hi. apply H1; lia. Qed.

Lemma _siftdown_loop_ordered fuel heap newitem pos :
  (pos <= fuel)%nat -> (pos < length heap)%nat ->
  ordered_but pos (<[pos := newitem]> heap) ->
  heap_ordered (_siftdown_loop fuel heap newitem 0 pos).
Proof.
  revert heap pos.
  induction fuel as [|fuel IH]; intros heap pos Hfuel Hpos Hinv.
  { assert (pos = 0%nat) as -> by lia. by apply ordered_but_root. }
  cbn [_siftdown_loop]. rewrite shiftr_1. fold (parent pos).
  destruct (0 <? pos)%nat eqn:Hlt.
  2:{ apply Nat.ltb_ge in Hlt. assert (pos = 0%nat) as -> by lia.
      by apply ordered_but_root. }
  apply Nat.ltb_lt in Hlt.
  assert (Hpp : (parent pos < pos)%nat) by (unfold parent; lia).
  destruct (lookup_lt_is_Some_2 heap (parent pos)) as [par Hpar]; [lia|].
  rewrite Hpar. destruct Hinv as [Hinv1 Hinv2].
  assert (HparV : <[pos := newitem]> heap !! parent pos = Some par).
  { rewrite list_lookup_insert_ne by lia. done. }
  assert (HposV : <[pos := newitem]> heap !! pos = Some newitem).
  { by apply list_lookup_insert_eq. }
  destruct (__lt__ newitem par) eqn:Hcmp.
  - (* the parent moves down, the walk goes on from its position *)
    apply IH; [lia|rewrite length_insert; lia|].
    assert (Hget : forall k z,
               <[parent pos := newitem]> (<[pos := par]> heap) !! k = Some z ->
               (k = pos /\ z = par) \/ (k = parent pos /\ z = newitem)
               \/ (k <> pos /\ k <> parent pos
                   /\ <[pos := newitem]> heap !! k = Some z)).
    { intros k z Hk.
      apply list_lookup_insert_Some in Hk as [(<- & <- & _)|[Hne Hk]]; [auto|].
      apply list_lookup_insert_Some in Hk as [(<- & <- & _)|[Hne' Hk]]; [auto|].
      right; right. split_and!; [done..|].
      by rewrite list_lookup_insert_ne. }
    split.
    + intros i x p Hi Hne Hx Hp.
      apply Hget in Hx as [[-> ->]|[[-> ->]|(Hx1 & Hx2 & Hx)]]; [|done|].
      * apply Hget in Hp as [[Hk _]|[[_ ->]|(_ & Hk & _)]]; [lia| |done].
        by apply lt_le_node.
      * apply Hget in Hp as [[Hk ->]|[[Hk ->]|(_ & _ & Hp)]].
        -- by apply (Hinv2 i x par).
        -- apply le_node_trans with par; [by apply lt_le_node|].
           apply (Hinv1 i x par); [done..|by rewrite Hk].
        -- by apply (Hinv1 i x p).
    + intros c x g Hppos Hc Hcp Hx Hg.
      assert (Hgp : <[pos := newitem]> heap !! parent (parent pos) = Some g).
      { apply Hget in Hg as [[Hk _]|[[Hk _]|(_ & _ & Hg)]]; [..|done];
          unfold parent in *; lia. }
      assert (Hparg : le_node g par).
      { apply (Hinv1 (parent pos) par g); [lia|lia|done|done]. }
      apply Hget in Hx as [[-> ->]|[[-> ->]|(Hx1 & Hx2 & Hx)]]; [done| |].
      * unfold parent in *. lia.
      * apply le_node_trans with par; [done|].
        apply (Hinv1 c x par); [done..|by rewrite Hcp].
  - (* [newitem] stays at [pos] *)
    intros i x p Hi Hx Hp.
    destruct (decide (i = pos)) as [->|Hne].
    + rewrite HposV in Hx. rewrite HparV in Hp.
      injection Hx as <-. injection Hp as <-. done.
    + by apply (Hinv1 i x p).
Qed.

Lemma le_node_refl x : le_node x x.
Proof. apply le_spec. lia. Qed.

(** One round of the bubbling loop: the smaller child [child], found at
    [c], is copied into the hole, which moves to [c]. *)
Lemma ordered_hole_step heap pos c child :
  ordered_hole pos heap ->
  (0 < c)%nat -> parent c = pos -> heap !! c = Some child ->
  (forall s y, (0 < s)%nat -> parent s = pos -> heap !! s = Some y ->
               le_node child y) ->
  ordered_hole c (<[pos := child]> heap).
Proof.
  intros [H1 H2] Hc Hcp Hchild Hsib.
  assert (Hlt : (pos < c)%nat) by (unfold parent in Hcp; lia).
  split.
  - intros i x p Hi Hic Hpc Hx Hp.
    apply list_lookup_insert_Some in Hx as [(<- & <- & _)|[Hne Hx]].
    + rewrite list_lookup_insert_ne in Hp by (unfold parent; lia).
      by apply (H2 c child p).
    + apply list_lookup_insert_Some in Hp as [(Hpi & <- & _)|[Hne' Hp]].
      * by apply (Hsib i x).
      * by apply (H1 i x p).
  - intros d x g _ Hd Hdp Hx Hg.
    rewrite Hcp in Hg.
    apply list_lookup_insert_Some in Hg as [(_ & <- & _)|[? _]]; [|done].
    assert (Hdc : (c < d)%nat) by (unfold parent in Hdp; lia).
    rewrite list_lookup_insert_ne in Hx by lia.
    apply (H1 d x child); [lia|lia|lia|done|by rewrite Hdp].
Qed.

(** The bubbling loop carries the hole down to a leaf. *)
Lemma _siftup_loop_ordered fuel heap pos heap' pos' :
  (length heap - pos <= fuel)%nat -> (pos < length heap)%nat ->
  ordered_hole pos heap ->
  _siftup_loop fuel heap (length heap) pos = (heap', pos') ->
  ordered_hole pos' heap' /\ (length heap' <= 2 * pos' + 1)%nat.
Proof.
  revert heap pos.
  induction fuel as [|fuel IH]; intros heap pos Hfuel Hpos Hinv Hloop; [lia|].
  cbn [_siftup_loop] in Hloop.
  destruct (2 * pos + 1 <? length heap)%nat eqn:Hlt.
  2:{ apply Nat.ltb_ge in Hlt. by injection Hloop as <- <-. }
  apply Nat.ltb_lt in Hlt.
  destruct (lookup_lt_is_Some_2 heap (2 * pos + 1)) as [lchild Hl]; [lia|].
  rewrite Hl in Hloop.
  assert (Hstep : forall c child,
             (c = 2 * pos + 1 \/ c = 2 * pos + 1 + 1)%nat ->
             heap !! c = Some child ->
             (forall s y, (0 < s)%nat -> parent s = pos ->
                          heap !! s = Some y -> le_node child y) ->
             _siftup_loop fuel (<[pos := child]> heap) (length heap) c
             = (heap', pos') ->
             ordered_hole pos' heap' /\ (length heap' <= 2 * pos' + 1)%nat).
  { intros c child Hc Hchild Hsib Hrec.
    pose proof (lookup_lt_Some _ _ _ Hchild) as Hclt.
    rewrite <- (length_insert heap pos child) in Hrec at 1.
    apply IH in Hrec; [done|rewrite length_insert; lia
                      |by rewrite length_insert|].
    apply ordered_hole_step; [done|lia|unfold parent; lia|done..]. }
  assert (Hkids : forall s, (0 < s)%nat -> parent s = pos ->
             (s = 2 * pos + 1 \/ s = 2 * pos + 1 + 1)%nat).
  { intros s Hs Hsp. unfold parent in Hsp. lia. }
  destruct (heap !! (2 * pos + 1 + 1)%nat) as [rchild|] eqn:Hr.
  - destruct ((2 * pos + 1 + 1 <? length heap)%nat && negb (__lt__ lchild rchild))
      eqn:Hcmp.
    + apply andb_true_iff in Hcmp as [_ Hcmp]. apply negb_true_iff in Hcmp.
      rewrite Hr in Hloop. apply (Hstep (2 * pos + 1 + 1)%nat rchild); [lia|done| |done].
      intros s y Hs Hsp Hy. destruct (Hkids s Hs Hsp) as [->| ->].
      * rewrite Hl in Hy. by injection Hy as <-.
      * rewrite Hr in Hy. injection Hy as <-. apply le_node_refl.
    + rewrite Hl in Hloop. apply (Hstep (2 * pos + 1)%nat lchild); [lia|done| |done].
      intros s y Hs Hsp Hy. destruct (Hkids s Hs Hsp) as [->| ->].
      * rewrite Hl in Hy. injection Hy as <-. apply le_node_refl.
      * rewrite Hr in Hy. injection Hy as <-.
        apply andb_false_iff in Hcmp as [Hcmp|Hcmp].
        -- apply Nat.ltb_ge in Hcmp. apply lookup_lt_Some in Hr. lia.
        -- apply negb_false_iff in Hcmp. by apply lt_le_node.
  - rewrite Hl in Hloop. apply (Hstep (2 * pos + 1)%nat lchild); [lia|done| |done].
    intros s y Hs Hsp Hy. destruct (Hkids s Hs Hsp) as [->| ->].
    + rewrite Hl in Hy. injection Hy as <-. apply le_node_refl.
    + by rewrite Hr in Hy.
Qed.

Lemma _siftup_ordered heap :
  ordered_hole 0 heap -> heap_ordered (_siftup heap 0).
Proof.
  intros Hinv. unfold _siftup.
  destruct (heap !! 0%nat) as [newitem|] eqn:Hroot.
  2:{ destruct heap; [apply heap_ordered_nil|done]. }
  pose proof (lookup_lt_Some _ _ _ Hroot) as Hlen.
  destruct (_siftup_loop _ _ _ _) as [heap' pos'] eqn:Hloop.
  destruct (_siftup_loop_perm _ _ _ _ _ Hlen Hloop) as (Hpos' & Hlen' & _).
  apply _siftup_loop_ordered in Hloop as [[H1 H2] Hleaf]; [|lia|done..].
  unfold _siftdown. rewrite list_lookup_insert_eq by done.
  apply _siftdown_loop_ordered; [lia|by rewrite length_insert|].
  rewrite list_insert_insert_eq. split.
  - intros i x p Hi Hne Hx Hp.
    rewrite list_lookup_insert_ne in Hx by done.
    apply list_lookup_insert_Some in Hp as [(Hpi & _ & _)|[Hne' Hp]].
    + apply lookup_lt_Some in Hx. unfold parent in Hpi. lia.
    + by apply (H1 i x p).
  - intros c x g _ Hc Hcp Hx _.
    apply lookup_lt_Some in Hx. rewrite length_insert in Hx.
    unfold parent in Hcp. lia.
Qed.

Lemma heappush_ordered heap item :
  heap_ordered heap -> heap_ordered (heappush heap item).
Proof.
  intros Hheap. unfold heappush, _siftdown.
  rewrite length_app. simpl.
  replace (length heap + 1 - 1)%nat with (length heap) by lia.
  assert (Hitem : (heap ++ [item]) !! length heap = Some item).
  { by rewrite lookup_app_r, Nat.sub_diag. }
  rewrite Hitem.
  apply _siftdown_loop_ordered; [lia|rewrite length_app; simpl; lia|].
  rewrite list_insert_id by done. split.
  - intros i x p Hi Hne Hx Hp.
    apply lookup_snoc_Some in Hx as [[Hlt Hx]|[? _]]; [|done].
    rewrite lookup_app_l in Hp by (unfold parent; lia).
    by apply (Hheap i x p).
  - intros c x g _ Hc Hcp Hx _.
    apply lookup_lt_Some in Hx. rewrite length_app in Hx. simpl in Hx.
    unfold parent in Hcp. lia.
Qed.

(** [heappop] returns a least node and leaves a heap. *)
Lemma heappop_ordered heap x heap' :
  heap_ordered heap -> heappop heap = Some (x, heap') ->
  heap_ordered heap' /\ forall y, y ∈ heap -> le_node x y.
Proof.
  intros Hheap. unfold heappop.
  destruct (last heap) as [lastelt|] eqn:Hlast; [|done].
  apply last_Some in Hlast as [front ->]. rewrite removelast_last.
  destruct front as [|returnitem rest]; simpl.
  - intros [= <- <-]. split; [apply heap_ordered_nil|].
    intros y ->%list_elem_of_singleton. apply le_node_refl.
  - intros [= <- <-]. split.
    + apply _siftup_ordered. split; [|intros; lia].
      intros i y p Hi _ Hpi Hy Hp.
      destruct i as [|i]; [lia|].
      destruct (parent (S i)) as [|k] eqn:Hk; [done|].
      apply (Hheap (S i) y p); [lia|..].
      * simpl in *. by apply lookup_app_l_Some.
      * rewrite Hk. simpl in *. by apply lookup_app_l_Some.
    + by apply (heap_ordered_root _ returnitem).
Qed.
End heap_order.

(** ** The trie depends on the multiset of leaves only

    When no two nodes of the queue carry the same character, [__lt__] orders
    them strictly, the least node is unique, and the nodes [get] returns do
    not depend on how the heap is laid out. *)

Lemma NoDup_char_inj (q : list HuffmanNode) x y :
  NoDup (char <$> q) -> x ∈ q -> y ∈ q -> char x = char y -> x = y.
Proof.
  intros Hnd [i Hi]%list_elem_of_lookup [j Hj]%list_elem_of_lookup Hxy.
  assert (i = j) as ->; [|congruence].
  apply (NoDup_lookup (char <$> q) i j (char x) Hnd).
  - by rewrite list_lookup_fmap, Hi.
  - by rewrite list_lookup_fmap, Hj, Hxy.
Qed.

Lemma get_ordered q x q' :
  heap_ordered q -> get q = Some (x, q') ->
  heap_ordered q' /\ forall y, y ∈ q -> le_node x y.
Proof. apply heappop_ordered. Qed.

Lemma put_ordered q item : heap_ordered q -> heap_ordered (put q item).
Proof. apply heappush_ordered. Qed.

Lemma get_deterministic q1 q2 x1 x2 q1' q2' :
  heap_ordered q1 -> heap_ordered q2 -> q1 ≡ₚ q2 -> NoDup (char <$> q1) ->
  get q1 = Some (x1, q1') -> get q2 = Some (x2, q2') ->
  x1 = x2 /\ q1' ≡ₚ q2'.
Proof.
  intros Ho1 Ho2 Hperm Hnd Hg1 Hg2.
  pose proof (get_perm _ _ _ Hg1) as Hp1.
  pose proof (get_perm _ _ _ Hg2) as Hp2.
  destruct (get_ordered _ _ _ Ho1 Hg1) as [_ Hmin1].
  destruct (get_ordered _ _ _ Ho2 Hg2) as [_ Hmin2].
  assert (Hx1 : x1 ∈ q1) by (rewrite Hp1; left).
  assert (Hx2 : x2 ∈ q1) by (rewrite Hperm, Hp2; left).
  assert (x1 = x2) as <-.
  { apply (NoDup_char_inj q1); [done..|].
    apply le_node_antisym_char; [by apply Hmin1|].
    apply Hmin2. by rewrite <- Hperm. }
  split; [done|].
  apply (Permutation_cons_inv (a := x1)). by rewrite <- Hp1, <- Hp2.
Qed.

Lemma grow_trie_loop_deterministic fuel (q1 q2 : PriorityQueue) :
  heap_ordered q1 -> heap_ordered q2 -> q1 ≡ₚ q2 -> NoDup (char <$> q1) ->
  grow_trie_loop fuel q1 = grow_trie_loop fuel q2.
Proof.
  revert q1 q2.
  induction fuel as [|fuel IH]; intros q1 q2 Ho1 Ho2 Hperm Hnd; [done|].
  cbn [grow_trie_loop]. unfold qsize.
  rewrite <- (Permutation_length Hperm).
  destruct (1 <? length q1)%nat eqn:Hlt.
  - apply Nat.ltb_lt in Hlt.
    destruct (get_is_Some q1) as (z1 & q1' & Hg1).
    { intros ->. simpl in Hlt. lia. }
    destruct (get_is_Some q2) as (z2 & q2' & Hg2).
    { intros ->. apply Permutation_length in Hperm. simpl in *. lia. }
    destruct (get_deterministic _ _ _ _ _ _ Ho1 Ho2 Hperm Hnd Hg1 Hg2)
      as [<- Hperm'].
    pose proof (get_perm _ _ _ Hg1) as Hp1.
    destruct (get_ordered _ _ _ Ho1 Hg1) as [Ho1' _].
    destruct (get_ordered _ _ _ Ho2 Hg2) as [Ho2' _].
    assert (Hnd' : NoDup (char z1 :: (char <$> q1'))).
    { by rewrite <- fmap_cons, <- Hp1. }
    destruct (get_is_Some q1') as (o1 & q1'' & Hg1').
    { intros ->. apply Permutation_length in Hp1. simpl in *. lia. }
    destruct (get_is_Some q2') as (o2 & q2'' & Hg2').
    { intros ->. apply Permutation_length in Hperm'.
      apply Permutation_length in Hp1. simpl in *. lia. }
    destruct (get_deterministic _ _ _ _ _ _ Ho1' Ho2' Hperm'
                (NoDup_cons_1_2 _ _ Hnd') Hg1' Hg2') as [<- Hperm''].
    pose proof (get_perm _ _ _ Hg1') as Hp1'.
    destruct (get_ordered _ _ _ Ho1' Hg1') as [Ho1'' _].
    destruct (get_ordered _ _ _ Ho2' Hg2') as [Ho2'' _].
    rewrite Hg1, Hg2. simpl. rewrite Hg1', Hg2'. simpl.
    apply IH; [by apply put_ordered..| |].
    + by rewrite !put_perm, Hperm''.
    + rewrite put_perm, fmap_cons. simpl.
      rewrite Hp1', fmap_cons in Hnd'.
      apply NoDup_cons in Hnd' as [Hz [Ho Hrest]%NoDup_cons].
      apply not_elem_of_cons in Hz as [_ Hz].
      apply NoDup_cons. by destruct (str_gt _ _).
  - apply Nat.ltb_ge in Hlt. f_equal.
    destruct q1 as [|x [|??]]; simpl in Hlt; [| |lia].
    + by apply Permutation_nil in Hperm.
    + by apply Permutation_singleton_l in Hperm.
Qed.

Lemma grow_trie_deterministic (q1 q2 : PriorityQueue) :
  heap_ordered q1 -> heap_ordered q2 -> q1 ≡ₚ q2 -> NoDup (char <$> q1) ->
  grow_trie q1 = grow_trie q2.
Proof.
  intros Ho1 Ho2 Hperm Hnd. unfold grow_trie, qsize.
  rewrite <- (Permutation_length Hperm).
  by rewrite (grow_trie_loop_deterministic _ q1 q2).
Qed.

(** ** Corpora with the same character counts *)

Lemma count_nonneg corpus c : 0 <= count corpus c.
Proof.
  induction corpus as [|d rest IH]; simpl; [lia|].
  destruct (decide (d = c)); lia.
Qed.

Lemma count_pos corpus c : 0 < count corpus c <-> str_in c corpus.
Proof.
  unfold str_in. induction corpus as [|d rest IH]; simpl.
  - rewrite elem_of_nil. lia.
  - pose proof (count_nonneg rest c). rewrite elem_of_cons.
    destruct (decide (d = c)) as [->|Hne].
    + split; [auto|lia].
    + rewrite <- IH. split; [auto|]. intros [->|?]; [done|lia].
Qed.

Lemma enumerates_elem chars corpus :
  enumerates chars corpus -> forall c, c ∈ chars <-> str_in c corpus.
Proof.
  intros (_ & H1 & H2) c. rewrite Forall_forall in H1, H2.
  split; [apply H1|apply H2].
Qed.

Lemma enumerates_NoDup chars corpus : enumerates chars corpus -> NoDup chars.
Proof. by intros [Hnd _]. Qed.

Lemma same_counts_empty corpus1 corpus2 :
  (forall c, count corpus1 c = count corpus2 c) ->
  corpus1 = EmptyString -> corpus2 = EmptyString.
Proof.
  intros Hcount ->. destruct corpus2 as [|c rest]; [done|].
  specialize (Hcount c). simpl in Hcount.
  pose proof (count_nonneg rest c).
  destruct (decide (c = c)); [lia|done].
Qed.

Lemma enumerates_perm chars1 chars2 corpus1 corpus2 :
  enumerates chars1 corpus1 -> enumerates chars2 corpus2 ->
  (forall c, count corpus1 c = count corpus2 c) ->
  chars1 ≡ₚ chars2.
Proof.
  intros He1 He2 Hcount.
  apply NoDup_Permutation; [by eapply enumerates_NoDup..|].
  intros c. rewrite (enumerates_elem _ _ He1), (enumerates_elem _ _ He2).
  by rewrite <- !count_pos, Hcount.
Qed.

Lemma Permutation_of_eq {A} (l k : list A) : l = k -> l ≡ₚ k.
Proof. by intros ->. Qed.

Lemma corpus_leaves_perm chars1 chars2 corpus1 corpus2 :
  chars1 ≡ₚ chars2 ->
  (forall c, count corpus1 c = count corpus2 c) ->
  corpus_leaves chars1 corpus1 ≡ₚ corpus_leaves chars2 corpus2.
Proof.
  intros Hperm Hcount. unfold corpus_leaves. f_equiv.
  rewrite Hperm. apply Permutation_of_eq.
  apply list_fmap_ext. intros _ c _. by rewrite Hcount.
Qed.

Lemma initial_leaves_ordered chars corpus :
  heap_ordered (initial_leaves chars corpus).
Proof.
  unfold initial_leaves.
  assert (Hq : heap_ordered (put [] (leaf ETB_CHAR 1))).
  { apply put_ordered, heap_ordered_nil. }
  revert Hq. generalize (put [] (leaf ETB_CHAR 1)).
  induction chars as [|c chars IH]; intros q Hq; simpl; [done|].
  by apply IH, put_ordered.
Qed.

Lemma initial_leaves_chars chars corpus :
  char <$> initial_leaves chars corpus ≡ₚ ETB_CHAR :: chars.
Proof.
  rewrite initial_leaves_perm. unfold corpus_leaves.
  rewrite fmap_cons. simpl. f_equiv.
  rewrite <- list_fmap_compose. by rewrite list_fmap_id.
Qed.

(** Two corpora with the same character counts, neither containing the
    sentinel, give the same codec, whichever way their characters are
    enumerated. *)
Lemma init_deterministic chars1 chars2 corpus1 corpus2 :
  enumerates chars1 corpus1 -> enumerates chars2 corpus2 ->
  (forall c, count corpus1 c = count corpus2 c) ->
  ~ str_in ETB_CHAR corpus1 ->
  __init__ chars1 corpus1 = __init__ chars2 corpus2.
Proof.
  intros He1 He2 Hcount Hetb.
  destruct (decide (corpus1 = EmptyString)) as [->|Hne1].
  { rewrite (same_counts_empty EmptyString corpus2); [|done..].
    by rewrite !init_empty. }
  assert (Hne2 : corpus2 <> EmptyString).
  { intros H2. apply Hne1. by apply (same_counts_empty corpus2 corpus1). }
  unfold __init__.
  apply len_pos in Hne1, Hne2. rewrite Hne1, Hne2.
  rewrite (grow_trie_deterministic (initial_leaves chars1 corpus1)
             (initial_leaves chars2 corpus2)); [done|..].
  - apply initial_leaves_ordered.
  - apply initial_leaves_ordered.
  - rewrite !initial_leaves_perm. apply corpus_leaves_perm; [|done].
    by apply (enumerates_perm _ _ corpus1 corpus2).
  - rewrite initial_leaves_chars.
    apply NoDup_cons. split; [|by eapply enumerates_NoDup].
    by rewrite (enumerates_elem _ _ He1).
Qed.

(** ** The encoding map is a prefix code *)

Lemma create_encoding_map_leaf node byte c w :
  create_encoding_map_node node byte !! c = Some w ->
  exists i e, leaf_paths node byte !! i = Some e /\ char e.1 = c /\ e.2 = w.
Proof.
  rewrite create_encoding_map_lookup.
  destruct (last _) as [e|] eqn:Hlast; [|done].
  intros [= <-].
  apply last_Some_elem_of, list_elem_of_filter in Hlast as [Hc He].
  apply list_elem_of_lookup in He as [i Hi]. eauto.
Qed.

Lemma create_encoding_map_prefix_code node byte :
  prefix_code (create_encoding_map_node node byte).
Proof.
  intros c1 c2 w1 w2 Hne H1 H2 Hpre.
  apply create_encoding_map_leaf in H1 as (i & e1 & Hi & Hc1 & <-).
  apply create_encoding_map_leaf in H2 as (j & e2 & Hj & Hc2 & <-).
  assert (i = j) as -> by (by eapply leaf_paths_prefix_free).
  congruence.
Qed.

(** ** Characters without an entry in the map *)

Lemma list_ascii_of_string_app (s t : string) :
  list_ascii_of_string (s +:+ t)
  = list_ascii_of_string s ++ list_ascii_of_string t.
Proof.
  induction s as [|c s IH]; [done|]. rewrite str_app_cons. simpl. by f_equal.
Qed.

Lemma add_char_unknown encode_map st c :
  encode_map !! c = None -> add_char encode_map st c = st.
Proof. intros Hc. unfold add_char. by rewrite Hc. Qed.

Lemma fold_add_char_known encode_map message st :
  fold_left (add_char encode_map) (list_ascii_of_string message) st
  = fold_left (add_char encode_map)
      (list_ascii_of_string (known encode_map message)) st.
Proof.
  revert st. induction message as [|c rest IH]; intros st; [done|]. simpl.
  destruct (encode_map !! c) eqn:Hc; simpl.
  - apply IH.
  - rewrite add_char_unknown by done. apply IH.
Qed.

(** ** The worked example: corpus [ABBBCC] *)

Lemma ABBBCC_enumeration : enumerates ["A"; "B"; "C"]%char "ABBBCC".
Proof. by apply (bool_decide_unpack _); vm_compute. Qed.

Lemma ABBBCC_no_sentinel : ~ str_in ETB_CHAR "ABBBCC".
Proof. by apply (bool_decide_unpack _); vm_compute. Qed.

(** Whatever the enumeration of its characters, the corpus gives the codec
    [ABBBCC_codec]. *)
Lemma ABBBCC_init chars :
  enumerates chars "ABBBCC" -> __init__ chars "ABBBCC" = Some ABBBCC_codec.
Proof.
  intros He.
  rewrite (init_deterministic chars ["A"; "B"; "C"]%char "ABBBCC" "ABBBCC");
    [|done|apply ABBBCC_enumeration|done|apply ABBBCC_no_sentinel].
  by vm_compute.
Qed.

Lemma ABBBCC_encoding_map :
  get_encoding_map ABBBCC_codec
  = <["A"%char := "101"]> (<["B"%char := "0"]> (<["C"%char := "11"]>
      {[ETB_CHAR := "100"]})).
Proof. by vm_compute. Qed.

(** ** The sentinel in the corpus *)

Lemma filter_labelled_fst c (l : list (HuffmanNode * string)) :
  (filter (labelled c) l).*1 = filter (has_char c) l.*1.
Proof.
  induction l as [|e l IH]; [done|].
  rewrite fmap_cons. destruct (decide (char e.1 = c)) as [Hc|Hc].
  - rewrite (filter_cons_True (labelled c)), (filter_cons_True (has_char c))
      by done.
    rewrite fmap_cons. by f_equal.
  - by rewrite (filter_cons_False (labelled c)), (filter_cons_False (has_char c))
      by done.
Qed.

Lemma leaf_paths_NoDup node byte : NoDup (leaf_paths node byte).*2.
Proof.
  apply NoDup_alt. intros i j w Hi Hj.
  rewrite list_lookup_fmap in Hi, Hj.
  destruct (leaf_paths node byte !! i) as [e1|] eqn:H1; [|done].
  destruct (leaf_paths node byte !! j) as [e2|] eqn:H2; [|done].
  simpl in *. apply (leaf_paths_prefix_free node byte i j e1 e2 H1 H2).
  injection Hi as ->. injection Hj as <-. apply is_prefix_refl.
Qed.

(** The characters with an entry in the map are the characters of the
    leaves. *)
Lemma create_encoding_map_dom node byte :
  dom (create_encoding_map_node node byte)
  = list_to_set (char <$> (leaf_paths node byte).*1).
Proof.
  apply set_eq. intros c.
  rewrite elem_of_dom, create_encoding_map_lookup, elem_of_list_to_set.
  rewrite list_elem_of_fmap. split.
  - intros [w Hw]. destruct (last _) as [e|] eqn:Hlast; [|done].
    apply last_Some_elem_of, list_elem_of_filter in Hlast as [Hc He].
    exists e.1. split; [done|]. apply list_elem_of_fmap. eauto.
  - intros (n & -> & (e & -> & He)%list_elem_of_fmap).
    destruct (last _) as [e'|] eqn:Hlast; [done|].
    apply last_None in Hlast.
    by apply (filter_nil_not_elem_of _ _ e) in Hlast.
Qed.

Lemma filter_has_char_leaves (mk : ascii -> Z) c chars :
  NoDup chars -> c ∈ chars ->
  filter (has_char c) ((fun item => leaf item (mk item)) <$> chars)
  = [leaf c (mk c)].
Proof.
  induction chars as [|d chars IH]; intros Hnd Hc.
  { by apply elem_of_nil in Hc. }
  apply NoDup_cons in Hnd as [Hd Hnd].
  rewrite fmap_cons, filter_cons. unfold has_char at 1. simpl.
  destruct (decide (d = c)) as [->|Hne].
  - f_equal. clear IH Hc Hnd.
    induction chars as [|e chars IH]; [done|].
    apply not_elem_of_cons in Hd as [Hce Hd].
    rewrite fmap_cons, filter_cons_False; [by apply IH|].
    unfold has_char. simpl. congruence.
  - apply IH; [done|]. apply elem_of_cons in Hc as [->|Hc]; done.
Qed.

Lemma corpus_leaves_sentinel chars corpus :
  enumerates chars corpus -> str_in ETB_CHAR corpus ->
  filter (has_char ETB_CHAR) (corpus_leaves chars corpus)
  = [leaf ETB_CHAR 1; leaf ETB_CHAR (count corpus ETB_CHAR)].
Proof.
  intros He Hetb. unfold corpus_leaves.
  rewrite filter_cons_True by done. f_equal.
  apply (filter_has_char_leaves (count corpus)); [by eapply enumerates_NoDup|].
  by apply (enumerates_elem _ _ He).
Qed.

(** ** The output of [compress_message] *)

Lemma tail_len_spec total :
  tail_len total
  = if decide (total = 0%nat) then 0%nat else ((total - 1) mod 8 + 1)%nat.
Proof.
  destruct total as [|t]; [done|]. unfold tail_len.
  rewrite decide_False by done. by replace (S t - 1)%nat with t by lia.
Qed.

Lemma len_app (s t : string) : len (s +:+ t) = (len s + len t)%nat.
Proof.
  induction s as [|c s IH]; [done|]. rewrite str_app_cons. simpl. by f_equal.
Qed.

Lemma len_str_add s x : len (str_add s x) = S (len s).
Proof. unfold str_add. rewrite len_app. simpl. lia. Qed.

Lemma len_list (s : string) : length (list_ascii_of_string s) = len s.
Proof. induction s as [|c s IH]; simpl; [done|by f_equal]. Qed.

Lemma concat_str_app (l k : list string) :
  concat_str (l ++ k) = concat_str l +:+ concat_str k.
Proof.
  induction l as [|s l IH]; [done|]. simpl. by rewrite IH, str_app_assoc.
Qed.

Lemma is_bits_app (s t : string) : is_bits (s +:+ t) <-> is_bits s /\ is_bits t.
Proof. unfold is_bits. by rewrite list_ascii_of_string_app, Forall_app. Qed.

Lemma is_bits_nil : is_bits EmptyString.
Proof. constructor. Qed.

Lemma is_bits_zeros n : is_bits (zeros n).
Proof.
  induction n as [|n IH]; [constructor|]. constructor; [by left|done].
Qed.

Lemma len_zeros n : len (zeros n) = n.
Proof. induction n as [|n IH]; simpl; [done|by f_equal]. Qed.

Lemma add_bit_fold (bits : string) (bitstr : string) (final : list string) :
  (len bitstr <= 8)%nat ->
  exists bitstr' final',
    fold_left add_bit (list_ascii_of_string bits) (bitstr, final)
    = (bitstr', final')
    /\ concat_str final' +:+ bitstr' = concat_str final +:+ bitstr +:+ bits
    /\ len bitstr' = tail_len (len bitstr + len bits)
    /\ (Forall (fun s => len s = 8%nat) final ->
        Forall (fun s => len s = 8%nat) final')
    /\ (Forall is_bits final -> is_bits bitstr -> is_bits bits ->
        Forall is_bits final' /\ is_bits bitstr').
Proof.
  revert bitstr final.
  induction bits as [|x bits IH]; intros bitstr final Hlen.
  { exists bitstr, final. split_and!; [done|by rewrite str_app_nil_r| |done|done].
    rewrite Nat.add_0_r. unfold tail_len. destruct (len bitstr) eqn:E; lia. }
  cbn [list_ascii_of_string fold_left]. unfold add_bit at 2.
  destruct (len bitstr =? 8)%nat eqn:Hfull.
  - apply Nat.eqb_eq in Hfull.
    destruct (IH (str_add EmptyString x) (final ++ [bitstr]))
      as (b' & f' & Hfold & Hcat & Hl & Hf8 & Hfb).
    { rewrite len_str_add. simpl. lia. }
    exists b', f'. split_and!; [done| | | |].
    + rewrite Hcat, concat_str_app. simpl.
      by rewrite str_app_nil_r, !str_app_assoc.
    + rewrite Hl, len_str_add, Hfull.
      change (len (String x bits)) with (S (len bits)).
      rewrite !tail_len_spec. simpl len. repeat case_decide; lia.
    + intros H8. apply Hf8. apply Forall_app. split; [done|]. by constructor.
    + intros Hb1 Hb2 Hb3. apply Forall_cons in Hb3 as [Hx Hb3].
      apply Hfb; [|by constructor|done].
      apply Forall_app. split; [done|]. by constructor.
  - apply Nat.eqb_neq in Hfull.
    destruct (IH (str_add bitstr x) final)
      as (b' & f' & Hfold & Hcat & Hl & Hf8 & Hfb).
    { rewrite len_str_add. lia. }
    exists b', f'. split_and!; [done| | |done|].
    + rewrite Hcat. unfold str_add. by rewrite !str_app_assoc.
    + rewrite Hl, len_str_add.
      change (len (String x bits)) with (S (len bits)). f_equal. lia.
    + intros Hb1 Hb2 Hb3. apply Forall_cons in Hb3 as [Hx Hb3].
      apply Hfb; [done| |done].
      apply is_bits_app. split; [done|]. by constructor.
Qed.

Lemma byte_bitstring_all (b7 b6 b5 b4 b3 b2 b1 b0 : bool) :
  byte_to_bitstring
    (bitstring_to_byte
       (string_of_list_ascii (map bit_char [b7; b6; b5; b4; b3; b2; b1; b0])))
  = string_of_list_ascii (map bit_char [b7; b6; b5; b4; b3; b2; b1; b0]).
Proof.
  destruct b7, b6, b5, b4, b3, b2, b1, b0; reflexivity.
Qed.

Lemma is_bit_char c : c = "0"%char \/ c = "1"%char -> exists b, c = bit_char b.
Proof. intros [->| ->]; [by exists false|by exists true]. Qed.

(** [byte_to_bitstring] undoes [bitstring_to_byte] on a string of eight
    bits. *)
Lemma byte_bitstring_roundtrip s :
  len s = 8%nat -> is_bits s -> byte_to_bitstring (bitstring_to_byte s) = s.
Proof.
  intros Hlen Hbits.
  do 8 (destruct s as [|? s]; [done|]). destruct s; [|done].
  unfold is_bits in Hbits. simpl in Hbits.
  repeat match goal with
         | H : Forall _ (_ :: _) |- _ =>
             apply Forall_cons in H as [?%is_bit_char H]
         end.
  repeat match goal with
         | H : exists b, _ = bit_char b |- _ => destruct H as [? ->]
         end.
  apply byte_bitstring_all.
Qed.

Lemma pad_loop_spec fuel s :
  (len s <= 8)%nat -> (8 - len s <= fuel)%nat ->
  pad_loop fuel s = s +:+ zeros (8 - len s).
Proof.
  revert s. induction fuel as [|fuel IH]; intros s Hlen Hfuel; simpl.
  - replace (8 - len s)%nat with 0%nat by lia. by rewrite str_app_nil_r.
  - destruct (len s =? 8)%nat eqn:Hfull.
    + apply Nat.eqb_eq in Hfull. rewrite Hfull. by rewrite str_app_nil_r.
    + apply Nat.eqb_neq in Hfull.
      rewrite IH by (rewrite len_str_add; lia).
      rewrite len_str_add. unfold str_add. rewrite str_app_assoc.
      by replace (8 - len s)%nat with (S (8 - S (len s))) by lia.
Qed.

Lemma codewords_app encode_map (s t : string) :
  codewords encode_map (s +:+ t)
  = codewords encode_map s +:+ codewords encode_map t.
Proof.
  induction s as [|c s IH]; [done|]. rewrite str_app_cons. simpl.
  by rewrite IH, str_app_assoc.
Qed.

Lemma codewords_sentinel encode_map message :
  codewords encode_map (str_add message ETB_CHAR)
  = codeword_stream encode_map message.
Proof.
  unfold str_add, codeword_stream. rewrite codewords_app. simpl.
  by rewrite str_app_nil_r.
Qed.

(** The two nested loops of [compress_message] are one loop over the bits
    of the codewords. *)
Lemma fold_add_char_codewords encode_map message st :
  fold_left (add_char encode_map) (list_ascii_of_string message) st
  = fold_left add_bit (list_ascii_of_string (codewords encode_map message)) st.
Proof.
  revert st. induction message as [|c rest IH]; intros st; [done|].
  simpl. rewrite list_ascii_of_string_app, fold_left_app, IH. f_equal.
  unfold add_char, codeword. by destruct (encode_map !! c).
Qed.

Lemma bit_content_acc bytes acc :
  fold_left (fun encoded_msg byte => encoded_msg +:+ byte_to_bitstring byte)
    bytes acc
  = acc +:+ concat_str (byte_to_bitstring <$> bytes).
Proof.
  revert acc. induction bytes as [|b bytes IH]; intros acc; simpl.
  - by rewrite str_app_nil_r.
  - by rewrite IH, str_app_assoc.
Qed.

Lemma bit_content_bitstrings out :
  Forall (fun s => len s = 8%nat) out -> Forall is_bits out ->
  bit_content (bitstrings_to_bytes out) = concat_str out.
Proof.
  intros H8 Hb. unfold bit_content. rewrite bit_content_acc, str_app_nil_l.
  f_equal. unfold bitstrings_to_bytes.
  induction out as [|s out IH]; [done|].
  apply Forall_cons in H8 as [Hs H8]. apply Forall_cons in Hb as [Hsb Hb].
  cbn [map]. rewrite fmap_cons. unfold concat_str. cbn [foldr].
  f_equal; [by apply byte_bitstring_roundtrip|by apply IH].
Qed.

(** What [compress_message] writes when the codeword stream does not end on
    a byte boundary: the stream, then the zero bits that fill the last
    byte. *)
Lemma compress_message_bits (self : ReusableHuffman) (message : string) :
  let stream := codeword_stream (get_encoding_map self) message in
  is_bits stream -> (len stream mod 8 <> 0)%nat ->
  bit_content (compress_message self message)
  = stream +:+ zeros (8 - len stream mod 8).
Proof.
  intros stream Hbits Hmod. unfold compress_message.
  rewrite fold_add_char_codewords, codewords_sentinel. fold stream.
  destruct (add_bit_fold stream EmptyString [])
    as (bitstr & final & Hfold & Hcat & Hlen & H8 & Hb); [simpl; lia|].
  rewrite Hfold. simpl in Hcat, Hlen.
  rewrite tail_len_spec in Hlen.
  destruct (decide (len stream = 0%nat)) as [Hz|Hnz].
  { rewrite Hz in Hmod. lia. }
  assert (Hl : len bitstr = (len stream mod 8)%nat) by lia.
  assert (Hlt : (len bitstr <? 8)%nat = true) by (apply Nat.ltb_lt; lia).
  rewrite Hlt, pad_loop_spec by lia.
  destruct (Hb (Forall_nil_2 _) is_bits_nil Hbits) as [Hbf Hbb].
  rewrite bit_content_bitstrings.
  - rewrite concat_str_app. simpl.
    by rewrite str_app_nil_r, <- str_app_assoc, Hcat, Hl.
  - apply Forall_app. split; [apply H8; constructor|].
    constructor; [|done]. rewrite len_app, len_zeros. lia.
  - apply Forall_app. split; [done|].
    constructor; [|done]. apply is_bits_app. split; [done|apply is_bits_zeros].
Qed.

(** What [compress_message] writes when the codeword stream ends on a byte
    boundary: the stream without its last eight bits, which are still in
    [bitstr] when the function returns. *)
Lemma compress_message_drops_byte (self : ReusableHuffman) (message : string) :
  let stream := codeword_stream (get_encoding_map self) message in
  is_bits stream -> (0 < len stream)%nat -> (len stream mod 8 = 0)%nat ->
  exists lost, len lost = 8%nat
    /\ bit_content (compress_message self message) +:+ lost = stream.
Proof.
  intros stream Hbits Hpos Hmod. unfold compress_message.
  rewrite fold_add_char_codewords, codewords_sentinel. fold stream.
  destruct (add_bit_fold stream EmptyString [])
    as (bitstr & final & Hfold & Hcat & Hlen & H8 & Hb); [simpl; lia|].
  rewrite Hfold. simpl in Hcat, Hlen.
  rewrite tail_len_spec, decide_False in Hlen by lia.
  assert (Hl : len bitstr = 8%nat) by lia.
  assert (Hlt : (len bitstr <? 8)%nat = false) by (apply Nat.ltb_ge; lia).
  rewrite Hlt.
  destruct (Hb (Forall_nil_2 _) is_bits_nil Hbits) as [Hbf Hbb].
  exists bitstr. split; [done|].
  rewrite bit_content_bitstrings; [done|apply H8; constructor|done].
Qed.

(** ** Decoding *)

Lemma Forall_proper_perm (P : HuffmanNode -> Prop) (q q' : list HuffmanNode) :
  q ≡ₚ q' -> Forall P q -> Forall P q'.
Proof. intros Hperm. by rewrite Hperm. Qed.

(** A property of the nodes that merging keeps holds of the whole queue
    when the loop of [grow_trie] ends. *)
Lemma grow_trie_loop_Forall (P : HuffmanNode -> Prop) fuel (q q' : PriorityQueue) :
  (forall c f zero one, P zero -> P one ->
     P (Build_HuffmanNode c f (Some zero) (Some one))) ->
  Forall P q -> grow_trie_loop fuel q = Some q' -> Forall P q'.
Proof.
  intros Hmerge. revert q.
  induction fuel as [|fuel IH]; intros q Hq Hloop; [done|].
  cbn [grow_trie_loop] in Hloop.
  destruct (1 <? qsize q)%nat; [|by injection Hloop as <-].
  destruct (get q) as [[zero_item q1]|] eqn:Hg1; [|done].
  simpl in Hloop.
  destruct (get q1) as [[one_item q2]|] eqn:Hg2; [|done].
  simpl in Hloop.
  apply get_perm in Hg1, Hg2.
  pose proof (Forall_proper_perm _ _ _ Hg1 Hq) as Hq1.
  apply Forall_cons in Hq1 as [Hz Hq1].
  pose proof (Forall_proper_perm _ _ _ Hg2 Hq1) as Hq2.
  apply Forall_cons in Hq2 as [Ho Hq2].
  apply IH in Hloop; [done|].
  eapply Forall_proper_perm; [symmetry; apply put_perm|].
  constructor; [by apply Hmerge|done].
Qed.

Lemma proper_leaf c f : proper (leaf c f).
Proof. done. Qed.

(** The trie that [__init__] keeps is strictly binary. *)
Lemma init_root_proper chars corpus root :
  grow_trie (initial_leaves chars corpus) = Some (root, []) -> proper root.
Proof.
  unfold grow_trie. intros Hgrow.
  destruct (grow_trie_loop _ _) as [q|] eqn:Hloop; [|done]. simpl in Hgrow.
  apply (grow_trie_loop_Forall proper) in Hloop.
  - apply get_perm in Hgrow.
    pose proof (Forall_proper_perm _ _ _ Hgrow Hloop) as Hq.
    by apply Forall_cons in Hq as [? _].
  - intros c f zero one Hz Ho. by split.
  - apply (Forall_proper_perm _ (corpus_leaves chars corpus));
      [by rewrite initial_leaves_perm|].
    constructor; [done|]. apply Forall_fmap, Forall_forall. by intros c _.
Qed.

Lemma walk_zero c f zero one :
  walk (Build_HuffmanNode c f (Some zero) one) "0" = zero.
Proof. done. Qed.

Lemma walk_one c f zero one :
  walk (Build_HuffmanNode c f zero (Some one)) "1" = one.
Proof. done. Qed.

(** From an inner node of a strictly binary trie, the bits that lead to a
    leaf below it make the loop of [decompress] arrive at that leaf, and at
    no leaf before. *)
Lemma decompress_loop_leaf trie_root node :
  forall byte e rest decoded_msg,
    proper node -> is_leaf node = false -> e ∈ leaf_paths node byte ->
    exists bits, e.2 = byte +:+ bits
      /\ decompress_loop trie_root (bits +:+ rest) node decoded_msg
         = if decide (char e.1 = ETB_CHAR) then decoded_msg
           else decompress_loop trie_root rest trie_root
                  (str_add decoded_msg (char e.1)).
Proof.
  induction node as [c f zero one IHz IHo] using HuffmanNode_rect'.
  intros byte e rest decoded_msg Hproper Hinner He.
  destruct zero as [z|], one as [o|]; try done.
  destruct Hproper as [Hpz Hpo]. simpl in IHz, IHo.
  rewrite leaf_paths_unfold in He. simpl in He.
  apply elem_of_app in He as [He|He].
  - destruct (is_leaf z) eqn:Hz.
    + destruct z as [cz fz [?|] [?|]]; try done.
      apply list_elem_of_singleton in He as ->.
      exists "0". split; [done|].
      rewrite str_app_cons, str_app_nil_l. cbn [decompress_loop].
      by rewrite walk_zero.
    + destruct (IHz (byte +:+ "0") e rest decoded_msg Hpz eq_refl He)
        as (bits & Hbits & Hloop).
      exists (String "0" bits). split.
      * by rewrite Hbits, str_app_assoc.
      * rewrite str_app_cons. cbn [decompress_loop].
        by rewrite walk_zero, Hz.
  - destruct (is_leaf o) eqn:Ho.
    + destruct o as [co fo [?|] [?|]]; try done.
      apply list_elem_of_singleton in He as ->.
      exists "1". split; [done|].
      rewrite str_app_cons, str_app_nil_l. cbn [decompress_loop].
      by rewrite walk_one.
    + destruct (IHo (byte +:+ "1") e rest decoded_msg Hpo eq_refl He)
        as (bits & Hbits & Hloop).
      exists (String "1" bits). split.
      * by rewrite Hbits, str_app_assoc.
      * rewrite str_app_cons. cbn [decompress_loop].
        by rewrite walk_one, Ho.
Qed.

(** Reading the codeword of [c] from the root decodes [c], or stops if [c]
    is the sentinel. *)
Lemma decompress_codeword root c w rest decoded_msg :
  proper root -> is_leaf root = false ->
  create_encoding_map_node root EmptyString !! c = Some w ->
  decompress_loop root (w +:+ rest) root decoded_msg
  = if decide (c = ETB_CHAR) then decoded_msg
    else decompress_loop root rest root (str_add decoded_msg c).
Proof.
  intros Hproper Hinner Hw.
  apply create_encoding_map_leaf in Hw as (i & e & Hi & <- & <-).
  apply list_elem_of_lookup_2 in Hi.
  destruct (decompress_loop_leaf root root EmptyString e rest decoded_msg)
    as (bits & Hbits & Hloop); [done..|].
  rewrite str_app_nil_l in Hbits. by rewrite Hbits.
Qed.

Lemma decompress_codewords root message rest decoded_msg :
  proper root -> is_leaf root = false ->
  (forall c, str_in c message ->
     c <> ETB_CHAR
     /\ is_Some (create_encoding_map_node root EmptyString !! c)) ->
  decompress_loop root
    (codewords (create_encoding_map_node root EmptyString) message +:+ rest)
    root decoded_msg
  = decompress_loop root rest root (decoded_msg +:+ message).
Proof.
  intros Hproper Hinner. revert decoded_msg.
  induction message as [|c message IH]; intros decoded_msg Hknown.
  { by rewrite str_app_nil_l, str_app_nil_r. }
  destruct (Hknown c) as [Hc [w Hw]]; [by left|].
  cbn [codewords]. unfold codeword at 1. rewrite Hw. simpl.
  rewrite str_app_assoc, (decompress_codeword root c w) by done.
  rewrite decide_False by done. rewrite IH.
  - unfold str_add. by rewrite str_app_assoc.
  - intros d Hd. apply Hknown. by right.
Qed.

Lemma leaf_paths_bits node byte e :
  is_bits byte -> e ∈ leaf_paths node byte -> is_bits e.2.
Proof.
  revert byte. induction node as [c f zero one IHz IHo] using HuffmanNode_rect'.
  intros byte Hbyte. rewrite leaf_paths_unfold. destruct (is_leaf _).
  - by intros ->%list_elem_of_singleton.
  - intros [H|H]%elem_of_app; [destruct zero|destruct one]; simpl in *;
      try (by apply elem_of_nil in H).
    + apply (IHz (byte +:+ "0")); [|done].
      apply is_bits_app. split; [done|]. constructor; [by left|constructor].
    + apply (IHo (byte +:+ "1")); [|done].
      apply is_bits_app. split; [done|]. constructor; [by right|constructor].
Qed.

Lemma codeword_bits node c :
  is_bits (codeword (create_encoding_map_node node EmptyString) c).
Proof.
  unfold codeword.
  destruct (create_encoding_map_node node EmptyString !! c) as [w|] eqn:Hw;
    [|apply is_bits_nil].
  apply create_encoding_map_leaf in Hw as (i & e & Hi & _ & <-).
  apply list_elem_of_lookup_2 in Hi.
  by apply (leaf_paths_bits node EmptyString); [apply is_bits_nil|].
Qed.

Lemma codeword_stream_bits node message :
  is_bits (codeword_stream (create_encoding_map_node node EmptyString) message).
Proof.
  unfold codeword_stream. apply is_bits_app. split; [|apply codeword_bits].
  induction message as [|c message IH]; [apply is_bits_nil|].
  simpl. apply is_bits_app. split; [apply codeword_bits|done].
Qed.

(** The characters with an entry in the map of a corpus that is not empty:
    the sentinel and the characters of the corpus. *)
Lemma init_entries chars corpus root c :
  leaves_of root ≡ₚ corpus_leaves chars corpus ->
  is_Some (create_encoding_map_node root EmptyString !! c)
  <-> c = ETB_CHAR \/ c ∈ chars.
Proof.
  intros Hleaves.
  rewrite <- elem_of_dom, create_encoding_map_dom. fold (leaves_of root).
  rewrite Hleaves. unfold corpus_leaves. rewrite fmap_cons. simpl.
  rewrite <- list_fmap_compose, list_fmap_id.
  by rewrite elem_of_union, elem_of_singleton, elem_of_list_to_set.
Qed.

Lemma init_root_inner chars corpus root :
  enumerates chars corpus -> corpus <> EmptyString ->
  leaves_of root ≡ₚ corpus_leaves chars corpus -> is_leaf root = false.
Proof.
  intros He Hne Hleaves. apply Permutation_length in Hleaves.
  destruct corpus as [|c0 rest]; [done|].
  assert (c0 ∈ chars) as Hc0.
  { apply (enumerates_elem _ _ He). by left. }
  destruct chars as [|d chars]; [by apply elem_of_nil in Hc0|].
  destruct root as [c f [z|] [o|]]; try done.
Qed.

(** Away from the defect of [compress_message] the codec is sound.  For a
    corpus that is not empty and a message of corpus characters without the
    sentinel, whenever the codeword stream does not end on a byte boundary
    the output has the wire format and [decompress] gives the message
    back. *)
Theorem round_trip_off_byte_boundary
    (chars : list ascii) (corpus message : string) :
  enumerates chars corpus -> corpus <> EmptyString ->
  (forall c, str_in c message -> str_in c corpus /\ c <> ETB_CHAR) ->
  exists codec, __init__ chars corpus = Some codec
    /\ ((len (codeword_stream (get_encoding_map codec) message) mod 8 <> 0)%nat ->
        wire_format codec message
        /\ decompress codec (compress_message codec message) = Ok message).
Proof.
  intros He Hne Hmsg.
  destruct (init_nonempty chars corpus Hne) as (root & Hgrow & Hleaves & Hinit).
  pose proof (init_root_proper _ _ _ Hgrow) as Hproper.
  pose proof (init_root_inner _ _ _ He Hne Hleaves) as Hinner.
  eexists. split; [exact Hinit|].
  set (codec := {| _encoding_map := _ |}).
  change (get_encoding_map codec) with (create_encoding_map_node root EmptyString).
  intros Hmod.
  pose proof (compress_message_bits codec message
                (codeword_stream_bits root message) Hmod) as Hbits.
  change (get_encoding_map codec)
    with (create_encoding_map_node root EmptyString) in Hbits.
  split.
  - eexists. split; [|exact Hbits]. lia.
  - unfold decompress. fold (bit_content (compress_message codec message)).
    rewrite Hbits. simpl. f_equal.
    destruct (proj2 (init_entries chars corpus root ETB_CHAR Hleaves))
      as [w Hw]; [by left|].
    unfold codeword_stream, codeword. rewrite Hw. simpl.
    rewrite !str_app_assoc, decompress_codewords; [|done..|].
    + rewrite (decompress_codeword root ETB_CHAR w) by done.
      by rewrite decide_True.
    + intros c Hc. destruct (Hmsg c Hc) as [Hin Hetb]. split; [done|].
      apply (init_entries chars corpus root c Hleaves). right.
      by apply (enumerates_elem _ _ He).
Qed.

Lemma round_trip_off_byte_boundary_witness :
  exists codec, __init__ ["A"; "B"; "C"]%char "ABBBCC" = Some codec
    /\ wire_format codec "CAB"
    /\ decompress codec (compress_message codec "CAB") = Ok "CAB".
Proof.
  destruct (round_trip_off_byte_boundary ["A"; "B"; "C"]%char "ABBBCC" "CAB")
    as (codec & Hinit & Hrt).
  - apply (bool_decide_unpack _). vm_compute. exact I.
  - discriminate.
  - intros c Hc. split.
    + unfold str_in in Hc. simpl in Hc. rewrite !elem_of_cons in Hc.
      destruct Hc as [->|[->|[->|Hc]]]; [..|by apply elem_of_nil in Hc];
        apply (bool_decide_unpack _); vm_compute; exact I.
    + intros ->. unfold str_in in Hc. simpl in Hc.
      rewrite !elem_of_cons, elem_of_nil in Hc.
      by destruct Hc as [?|[?|[?|?]]].
  - exists codec. split; [done|]. apply Hrt.
    rewrite (ABBBCC_init ["A"; "B"; "C"]%char) in Hinit
      by apply ABBBCC_enumeration.
    injection Hinit as <-. vm_compute. discriminate.
Defined.

(** Under an inner node every leaf has a bit string that is not empty. *)
Lemma leaf_paths_inner_nonempty node e :
  is_leaf node = false -> e ∈ leaf_paths node EmptyString ->
  (0 < len e.2)%nat.
Proof.
  destruct node as [c f zero one]. intros Hinner.
  rewrite leaf_paths_unfold, Hinner.
  intros [H|H]%elem_of_app; [destruct zero|destruct one]; simpl in H;
    try (by apply elem_of_nil in H);
    apply leaf_paths_prefix in H as [t ->];
    rewrite str_app_nil_l, str_app_cons; simpl; lia.
Qed.

(** The output of [compress_message] has the wire format exactly when the
    codeword stream does not end on a byte boundary.  On a boundary the
    last eight bits of the stream are missing from the output. *)
Theorem wire_format_iff_off_byte_boundary
    (chars : list ascii) (corpus message : string) :
  enumerates chars corpus -> corpus <> EmptyString ->
  exists codec, __init__ chars corpus = Some codec
    /\ (wire_format codec message <->
        (len (codeword_stream (get_encoding_map codec) message) mod 8 <> 0)%nat).
Proof.
  intros He Hne.
  destruct (init_nonempty chars corpus Hne) as (root & Hgrow & Hleaves & Hinit).
  pose proof (init_root_inner _ _ _ He Hne Hleaves) as Hinner.
  eexists. split; [exact Hinit|].
  set (codec := {| _encoding_map := _ |}).
  pose proof (codeword_stream_bits root message) as Hbits.
  change (create_encoding_map_node root EmptyString)
    with (get_encoding_map codec) in Hbits.
  set (stream := codeword_stream (get_encoding_map codec) message) in *.
  assert (Hpos : (0 < len stream)%nat).
  { unfold stream, codeword_stream. rewrite len_app.
    destruct (proj2 (init_entries chars corpus root ETB_CHAR Hleaves))
      as [w Hw]; [by left|].
    unfold codeword, get_encoding_map. simpl. rewrite Hw. simpl.
    apply create_encoding_map_leaf in Hw as (i & e & Hi & _ & <-).
    apply list_elem_of_lookup_2, leaf_paths_inner_nonempty in Hi; [lia|done]. }
  split.
  - intros (n & Hn & Hwire) Hmod.
    destruct (compress_message_drops_byte codec message Hbits Hpos Hmod)
      as (lost & Hlost & Hstream).
    fold stream in Hstream, Hwire.
    apply (f_equal len) in Hstream, Hwire.
    rewrite len_app in Hstream. rewrite len_app, len_zeros in Hwire. lia.
  - intros Hmod. exists (8 - len stream mod 8)%nat. split; [lia|].
    by apply compress_message_bits.
Qed.

Lemma wire_format_iff_off_byte_boundary_witness :
  exists codec, __init__ ["A"; "B"; "C"]%char "ABBBCC" = Some codec
    /\ (wire_format codec "BBBBB" <->
        (len (codeword_stream (get_encoding_map codec) "BBBBB") mod 8 <> 0)%nat).
Proof.
  apply (wire_format_iff_off_byte_boundary ["A"; "B"; "C"]%char "ABBBCC" "BBBBB").
  - apply (bool_decide_unpack _). vm_compute. exact I.
  - discriminate.
Defined.

(** * The claims of the specification *)

(** C1, at a failing input.  On the codec of the corpus "ABBBCC" the
    message "BBBBB", made of a corpus character that is not the sentinel,
    has a codeword stream of exactly eight bits.  The loop of
    [compress_message] ends with these eight bits still in [bitstr]; the
    test [len(bitstr) < 8] then skips the final append, the output is the
    empty byte sequence, and [decompress] of it is the empty string. *)
Theorem C1_round_trip_fails (chars : list ascii) :
  enumerates chars "ABBBCC" ->
  exists codec, __init__ chars "ABBBCC" = Some codec
    /\ str_in "B"%char "ABBBCC" /\ "B"%char <> ETB_CHAR
    /\ codeword_stream (get_encoding_map codec) "BBBBB" = "00000100"
    /\ compress_message codec "BBBBB" = []
    /\ decompress codec (compress_message codec "BBBBB") = Ok EmptyString
    /\ decompress codec (compress_message codec "BBBBB") <> Ok "BBBBB".
Proof.
  intros He. exists ABBBCC_codec. split; [by apply ABBBCC_init|].
  split_and!; [by apply (bool_decide_unpack _); vm_compute|done
              |by vm_compute..|discriminate].
Qed.

Lemma C1_round_trip_fails_witness :
  exists codec, __init__ ["A"; "B"; "C"]%char "ABBBCC" = Some codec
    /\ str_in "B"%char "ABBBCC" /\ "B"%char <> ETB_CHAR
    /\ codeword_stream (get_encoding_map codec) "BBBBB" = "00000100"
    /\ compress_message codec "BBBBB" = []
    /\ decompress codec (compress_message codec "BBBBB") = Ok EmptyString
    /\ decompress codec (compress_message codec "BBBBB") <> Ok "BBBBB".
Proof.
  apply (C1_round_trip_fails ["A"; "B"; "C"]%char).
  apply (bool_decide_unpack _). vm_compute. exact I.
Defined.

Lemma zeros_nonempty_output n : EmptyString <> "00000100" +:+ zeros n.
Proof. discriminate. Qed.

(** C2, at a failing input.  Same codec, same message: the codeword stream
    is the eight bits 00000100, the output of [compress_message] has no
    byte at all, so its bit content is not the stream followed by padding. *)
Theorem C2_wire_format_fails (chars : list ascii) :
  enumerates chars "ABBBCC" ->
  exists codec, __init__ chars "ABBBCC" = Some codec
    /\ codeword_stream (get_encoding_map codec) "BBBBB" = "00000100"
    /\ bit_content (compress_message codec "BBBBB") = EmptyString
    /\ ~ wire_format codec "BBBBB".
Proof.
  intros He. exists ABBBCC_codec. split; [by apply ABBBCC_init|].
  split_and!; [by vm_compute..|].
  intros (n & _ & Hn). revert Hn.
  change (bit_content (compress_message ABBBCC_codec "BBBBB")) with EmptyString.
  change (codeword_stream (get_encoding_map ABBBCC_codec) "BBBBB") with "00000100".
  apply zeros_nonempty_output.
Qed.

Lemma C2_wire_format_fails_witness :
  exists codec, __init__ ["B"; "C"; "A"]%char "ABBBCC" = Some codec
    /\ codeword_stream (get_encoding_map codec) "BBBBB" = "00000100"
    /\ bit_content (compress_message codec "BBBBB") = EmptyString
    /\ ~ wire_format codec "BBBBB".
Proof.
  apply (C2_wire_format_fails ["B"; "C"; "A"]%char).
  apply (bool_decide_unpack _). vm_compute. exact I.
Defined.

(** C3, at the failing input.  On the codec of the empty corpus,
    [compress_message] of the empty message returns the one byte [00000000]
    and [decompress] of that byte raises: [__init__] took the branch that
    assigns the map [{ETB_CHAR: '0'}] and never assigned [_trie_root]. *)
Theorem C3_empty_corpus_round_trip_raises (chars : list ascii) :
  exists codec, __init__ chars EmptyString = Some codec
    /\ compress_message codec EmptyString = [x00]
    /\ decompress codec (compress_message codec EmptyString)
       = Raise (AttributeError "_trie_root")
    /\ decompress codec (compress_message codec EmptyString) <> Ok EmptyString.
Proof.
  eexists. split; [apply init_empty|]. split_and!; [reflexivity|reflexivity|].
  discriminate.
Qed.

(** C4, as stated, fails on a corpus that contains the sentinel.  The
    corpus [sentinel_corpus], two sentinels then A, B, C, puts the leaves
    E1 = (ETB, 1), E2 = (ETB, 2), A, B, C of frequency 1 into the queue.
    The first two [get]s return E1 and A, merged into N = (ETB, 2); the next
    two return B and C, merged into M = (B, 2).  The queue then holds E2, N
    and M, and E2 and N tie: same frequency, same character, so neither is
    [<] the other, and [heappop] returns the one that sits at the root of
    the list.
    - [put] order E1, E2, A, B, C: the list is [E2; N] when M arrives, [get]
      returns E2, then N; the root is ((B C) (E2 (E1 A))) and the map sends
      the sentinel to 110, the bit string of E1, visited after E2.
    - [put] order E1, A, E2, B, C: the list is [N; E2] when M arrives, [get]
      returns N, then E2; the root is ((B C) ((E1 A) E2)) and the map sends
      the sentinel to 11, the bit string of E2, visited after E1.
    Two enumerations of the same corpus give different encoding maps. *)
Lemma C4_counterexample :
  enumerates [ETB_CHAR; "A"; "B"; "C"]%char sentinel_corpus
  /\ enumerates ["A"; ETB_CHAR; "B"; "C"]%char sentinel_corpus
  /\ exists codec1 codec2,
      __init__ [ETB_CHAR; "A"; "B"; "C"]%char sentinel_corpus = Some codec1
      /\ __init__ ["A"; ETB_CHAR; "B"; "C"]%char sentinel_corpus = Some codec2
      /\ get_encoding_map codec1 !! ETB_CHAR = Some "110"
      /\ get_encoding_map codec2 !! ETB_CHAR = Some "11"
      /\ get_encoding_map codec1 <> get_encoding_map codec2.
Proof.
  split; [by apply (bool_decide_unpack _); vm_compute|].
  split; [by apply (bool_decide_unpack _); vm_compute|].
  destruct (__init__ [ETB_CHAR; "A"; "B"; "C"]%char sentinel_corpus)
    as [codec1|] eqn:H1; [|by vm_compute in H1].
  destruct (__init__ ["A"; ETB_CHAR; "B"; "C"]%char sentinel_corpus)
    as [codec2|] eqn:H2; [|by vm_compute in H2].
  exists codec1, codec2.
  assert (Hc1 : get_encoding_map codec1 !! ETB_CHAR = Some "110").
  { vm_compute in H1. injection H1 as <-. by vm_compute. }
  assert (Hc2 : get_encoding_map codec2 !! ETB_CHAR = Some "11").
  { vm_compute in H2. injection H2 as <-. by vm_compute. }
  split_and!; [done..|].
  intros Heq. rewrite Heq, Hc2 in Hc1. discriminate.
Qed.

(** C4, amended.  Two corpora with the same count of every character,
    neither containing the sentinel, give codecs with the same trie and the
    same encoding map, whatever the orders in which their distinct
    characters are enumerated. *)
Theorem C4_determinism_without_sentinel
    (chars1 chars2 : list ascii) (corpus1 corpus2 : string) :
  enumerates chars1 corpus1 -> enumerates chars2 corpus2 ->
  (forall c, count corpus1 c = count corpus2 c) ->
  ~ str_in ETB_CHAR corpus1 ->
  exists codec1 codec2,
    __init__ chars1 corpus1 = Some codec1
    /\ __init__ chars2 corpus2 = Some codec2
    /\ _trie_root codec1 = _trie_root codec2
    /\ get_encoding_map codec1 = get_encoding_map codec2.
Proof.
  intros He1 He2 Hcount Hetb.
  destruct (init_total chars1 corpus1) as [codec Hinit].
  exists codec, codec. split_and!; [done| |done..].
  by rewrite <- (init_deterministic chars1 chars2 corpus1 corpus2).
Qed.

Lemma C4_determinism_without_sentinel_witness :
  exists codec1 codec2,
    __init__ ["A"; "B"; "C"]%char "ABBBCC" = Some codec1
    /\ __init__ ["C"; "B"; "A"]%char "CBCBAB" = Some codec2
    /\ _trie_root codec1 = _trie_root codec2
    /\ get_encoding_map codec1 = get_encoding_map codec2.
Proof.
  apply (C4_determinism_without_sentinel
           ["A"; "B"; "C"]%char ["C"; "B"; "A"]%char "ABBBCC" "CBCBAB").
  - apply (bool_decide_unpack _). vm_compute. exact I.
  - apply (bool_decide_unpack _). vm_compute. exact I.
  - intros c. simpl. repeat case_decide; lia.
  - apply (bool_decide_unpack _). vm_compute. exact I.
Defined.

(** C5. For every corpus (and every order in which its characters are
    enumerated) the constructor returns a codec, and in the encoding map of
    that codec no codeword is a prefix of another codeword. *)
Theorem C5_prefix_code (chars : list ascii) (corpus : string) :
  exists codec, __init__ chars corpus = Some codec
                /\ prefix_code (get_encoding_map codec).
Proof.
  destruct (decide (corpus = EmptyString)) as [->|Hne].
  - eexists. split; [apply init_empty|]. unfold get_encoding_map. simpl.
    intros c1 c2 w1 w2 Hc [<- _]%lookup_singleton_Some [<- _]%lookup_singleton_Some.
    done.
  - destruct (init_nonempty chars corpus Hne) as (root & _ & _ & ->).
    eexists. split; [done|]. apply create_encoding_map_prefix_code.
Qed.

(** C6. The corpus "ABBBCC" puts into the queue the sentinel with frequency
    1 and the leaves A:1, B:3, C:2.  On the codec built from it,
    [compress_message("ABBBCC")] is the two bytes 10100011 11100000: the
    codewords 101 0 0 0 11 11 of the message, the codeword 100 of the
    sentinel, three padding zeros.  [decompress] of these bytes is
    "ABBBCC". *)
Theorem C6_worked_example (chars : list ascii) :
  enumerates chars "ABBBCC" ->
  exists codec, __init__ chars "ABBBCC" = Some codec
    /\ initial_leaves chars "ABBBCC"
       ≡ₚ [leaf ETB_CHAR 1; leaf "A" 1; leaf "B" 3; leaf "C" 2]
    /\ compress_message codec "ABBBCC"
       = bitstrings_to_bytes ["10100011"; "11100000"]
    /\ byte_to_bitstring <$> compress_message codec "ABBBCC"
       = ["10100011"; "11100000"]
    /\ bit_content (compress_message codec "ABBBCC")
       = codeword_stream (get_encoding_map codec) "ABBBCC" +:+ zeros 3
    /\ codeword_stream (get_encoding_map codec) "ABBBCC"
       = ("101" +:+ "0" +:+ "0" +:+ "0" +:+ "11" +:+ "11") +:+ "100"
    /\ decompress codec (bitstrings_to_bytes ["10100011"; "11100000"])
       = Ok "ABBBCC".
Proof.
  intros He. exists ABBBCC_codec. split; [by apply ABBBCC_init|].
  split; [|by vm_compute].
  rewrite initial_leaves_perm. unfold corpus_leaves. f_equiv.
  rewrite (enumerates_perm chars ["A"; "B"; "C"]%char "ABBBCC" "ABBBCC");
    [done|done|apply ABBBCC_enumeration|done].
Qed.

Lemma C6_worked_example_witness :
  exists codec, __init__ ["C"; "A"; "B"]%char "ABBBCC" = Some codec
    /\ initial_leaves ["C"; "A"; "B"]%char "ABBBCC"
       ≡ₚ [leaf ETB_CHAR 1; leaf "A" 1; leaf "B" 3; leaf "C" 2]
    /\ compress_message codec "ABBBCC"
       = bitstrings_to_bytes ["10100011"; "11100000"]
    /\ byte_to_bitstring <$> compress_message codec "ABBBCC"
       = ["10100011"; "11100000"]
    /\ bit_content (compress_message codec "ABBBCC")
       = codeword_stream (get_encoding_map codec) "ABBBCC" +:+ zeros 3
    /\ codeword_stream (get_encoding_map codec) "ABBBCC"
       = ("101" +:+ "0" +:+ "0" +:+ "0" +:+ "11" +:+ "11") +:+ "100"
    /\ decompress codec (bitstrings_to_bytes ["10100011"; "11100000"])
       = Ok "ABBBCC".
Proof.
  apply (C6_worked_example ["C"; "A"; "B"]%char).
  apply (bool_decide_unpack _). vm_compute. exact I.
Defined.

(** C7. [compress_message] is a total function: it returns a byte sequence
    for every codec and every message.  A character without an entry in the
    encoding map leaves the loop state as it is, so it adds no bit, and the
    output for a message is the output for the message without its unknown
    characters. *)
Theorem C7_unknown_characters_skipped (self : ReusableHuffman) (message : string) :
  (forall st c, get_encoding_map self !! c = None ->
                add_char (get_encoding_map self) st c = st)
  /\ compress_message self message
     = compress_message self (known (get_encoding_map self) message).
Proof.
  split; [intros st c; apply add_char_unknown|].
  unfold compress_message, str_add.
  rewrite !list_ascii_of_string_app, !fold_left_app.
  by rewrite <- fold_add_char_known.
Qed.

(** C8. The constructor leaves [_trie_root] unassigned exactly when the
    corpus is empty, and on a codec without [_trie_root] every call of
    [decompress] raises the error of an uninitialised codec instead of
    returning a string. *)
Theorem C8_uninitialized_decompress_raises (chars : list ascii) (corpus : string) :
  exists codec, __init__ chars corpus = Some codec
    /\ (_trie_root codec = None <-> corpus = EmptyString)
    /\ (_trie_root codec = None ->
        forall compressed_msg, exists e,
          decompress codec compressed_msg = Raise e /\ UninitializedCodec e).
Proof.
  destruct (decide (corpus = EmptyString)) as [->|Hne].
  - eexists. split; [apply init_empty|]. simpl. split; [done|].
    intros _ compressed_msg. eexists. split; [|done]. done.
  - destruct (init_nonempty chars corpus Hne) as (root & _ & _ & ->).
    eexists. split; [done|]. simpl. split; [split; done|done].
Qed.

(** C9. The codec of the empty corpus has the encoding map with the single
    entry sentinel -> "0": the code of the sentinel is one bit long. *)
Theorem C9_empty_corpus_encoding_map (chars : list ascii) :
  exists codec, __init__ chars EmptyString = Some codec
    /\ get_encoding_map codec = {[ETB_CHAR := "0"]}
    /\ size (get_encoding_map codec) = 1%nat
    /\ exists code, get_encoding_map codec !! ETB_CHAR = Some code
                    /\ code = "0" /\ len code = 1%nat.
Proof.
  eexists. split; [apply init_empty|]. unfold get_encoding_map. simpl.
  split_and!; [done|apply map_size_singleton|].
  exists "0". by rewrite lookup_singleton_eq.
Qed.

(** C10. When the corpus contains the sentinel character, the constructor
    puts two sentinel leaves into the queue, one with frequency 1 and one
    with the number of occurrences of the sentinel in the corpus.  The trie
    has both of them, at two different positions, and one leaf more than the
    encoding map has entries: the entry of the sentinel is the bit string of
    the sentinel leaf that the traversal of [create_encoding_map] meets
    last. *)
Theorem C10_sentinel_in_corpus (chars : list ascii) (corpus : string) :
  enumerates chars corpus -> str_in ETB_CHAR corpus ->
  exists codec root,
    __init__ chars corpus = Some codec
    /\ _trie_root codec = Some root
    /\ filter (has_char ETB_CHAR) (initial_leaves chars corpus)
       ≡ₚ [leaf ETB_CHAR 1; leaf ETB_CHAR (count corpus ETB_CHAR)]
    /\ (exists p1 p2, p1 <> p2
        /\ filter (labelled ETB_CHAR) (leaf_paths root EmptyString)
           ≡ₚ [(leaf ETB_CHAR 1, p1);
               (leaf ETB_CHAR (count corpus ETB_CHAR), p2)])
    /\ get_encoding_map codec !! ETB_CHAR
       = snd <$> last (filter (labelled ETB_CHAR) (leaf_paths root EmptyString))
    /\ length (leaf_paths root EmptyString) = S (length chars)
    /\ size (get_encoding_map codec) = length chars.
Proof.
  intros He Hetb.
  assert (Hne : corpus <> EmptyString).
  { intros ->. by apply elem_of_nil in Hetb. }
  destruct (init_nonempty chars corpus Hne) as (root & _ & Hleaves & Hinit).
  eexists _, root. split; [exact Hinit|]. simpl. split; [done|].
  unfold get_encoding_map. simpl. split_and!.
  - by rewrite initial_leaves_perm, corpus_leaves_sentinel.
  - set (F := filter (labelled ETB_CHAR) (leaf_paths root EmptyString)).
    assert (HF : F.*1 ≡ₚ [leaf ETB_CHAR 1; leaf ETB_CHAR (count corpus ETB_CHAR)]).
    { unfold F. rewrite filter_labelled_fst.
      fold (leaves_of root). by rewrite Hleaves, corpus_leaves_sentinel. }
    assert (Hnd : NoDup F.*2).
    { apply (sublist_NoDup _ (leaf_paths root EmptyString).*2);
        [apply leaf_paths_NoDup|].
      apply fmap_sublist, sublist_filter. }
    symmetry in HF. apply Permutation_length_2_inv in HF.
    destruct F as [|[n1 p1] [|[n2 p2] [|??]]]; try (by destruct HF).
    simpl in *. apply NoDup_cons in Hnd as [Hp _].
    apply not_elem_of_cons in Hp as [Hp _].
    destruct HF as [[= -> ->]|[= -> ->]].
    + by exists p1, p2.
    + exists p2, p1. split; [done|]. apply perm_swap.
  - apply create_encoding_map_lookup.
  - rewrite <- (length_fmap fst). fold (leaves_of root).
    rewrite Hleaves. unfold corpus_leaves. simpl. by rewrite length_fmap.
  - rewrite <- size_dom, create_encoding_map_dom. fold (leaves_of root).
    rewrite Hleaves. unfold corpus_leaves. rewrite fmap_cons. simpl.
    rewrite <- list_fmap_compose, list_fmap_id.
    assert (ETB_CHAR ∈ chars) as Hin by (by apply (enumerates_elem _ _ He)).
    assert (({[ETB_CHAR]} ∪ list_to_set chars : gset ascii) = list_to_set chars)
      as ->.
    { apply set_eq. intros c.
      rewrite elem_of_union, elem_of_singleton, elem_of_list_to_set.
      split; [by intros [->|?]|by right]. }
    apply size_list_to_set. by eapply enumerates_NoDup.
Qed.

Lemma C10_sentinel_in_corpus_witness :
  exists codec root,
    __init__ ["A"; ETB_CHAR; "B"; "C"]%char sentinel_corpus = Some codec
    /\ _trie_root codec = Some root
    /\ filter (has_char ETB_CHAR)
         (initial_leaves ["A"; ETB_CHAR; "B"; "C"]%char sentinel_corpus)
       ≡ₚ [leaf ETB_CHAR 1; leaf ETB_CHAR (count sentinel_corpus ETB_CHAR)]
    /\ (exists p1 p2, p1 <> p2
        /\ filter (labelled ETB_CHAR) (leaf_paths root EmptyString)
           ≡ₚ [(leaf ETB_CHAR 1, p1);
               (leaf ETB_CHAR (count sentinel_corpus ETB_CHAR), p2)])
    /\ get_encoding_map codec !! ETB_CHAR
       = snd <$> last (filter (labelled ETB_CHAR) (leaf_paths root EmptyString))
    /\ length (leaf_paths root EmptyString)
       = S (length ["A"; ETB_CHAR; "B"; "C"]%char)
    /\ size (get_encoding_map codec) = length ["A"; ETB_CHAR; "B"; "C"]%char.
Proof.
  apply (C10_sentinel_in_corpus ["A"; ETB_CHAR; "B"; "C"]%char sentinel_corpus).
  - apply (bool_decide_unpack _). vm_compute. exact I.
  - apply (bool_decide_unpack _). vm_compute. exact I.
Defined.

(** * Further properties of the code *)

(** ** Invariants of [grow_trie] *)

Lemma every_node_here P node : every_node P node -> P node.
Proof. destruct node. by intros [? _]. Qed.

Lemma every_node_merge P zero_item one_item :
  P (merge zero_item one_item) ->
  every_node P zero_item -> every_node P one_item ->
  every_node P (merge zero_item one_item).
Proof. intros Hm Hz Ho. unfold merge. simpl. by split_and!. Qed.

Lemma every_node_leaf P c f : P (leaf c f) -> every_node P (leaf c f).
Proof. intros Hl. simpl. by split_and!. Qed.

(** A property that holds of the nodes of the queue, and of the merge of a
    least node with another node, holds of the nodes the loop of
    [grow_trie] leaves in the queue. *)
Lemma grow_trie_loop_invariant (P : HuffmanNode -> Prop) fuel
    (q q' : PriorityQueue) :
  (forall zero_item one_item, P zero_item -> P one_item ->
     le_node zero_item one_item -> P (merge zero_item one_item)) ->
  heap_ordered q -> Forall P q ->
  grow_trie_loop fuel q = Some q' -> Forall P q'.
Proof.
  intros Hmerge. revert q.
  induction fuel as [|fuel IH]; intros q Ho Hq Hloop; [done|].
  cbn [grow_trie_loop] in Hloop.
  destruct (1 <? qsize q)%nat; [|by injection Hloop as <-].
  destruct (get q) as [[zero_item q1]|] eqn:Hg1; [|done].
  simpl in Hloop.
  destruct (get q1) as [[one_item q2]|] eqn:Hg2; [|done].
  simpl in Hloop.
  destruct (get_ordered _ _ _ Ho Hg1) as [Ho1 Hmin].
  destruct (get_ordered _ _ _ Ho1 Hg2) as [Ho2 _].
  apply get_perm in Hg1, Hg2.
  pose proof (Forall_proper_perm _ _ _ Hg1 Hq) as Hq1.
  apply Forall_cons in Hq1 as [Hz Hq1].
  pose proof (Forall_proper_perm _ _ _ Hg2 Hq1) as Hq2.
  apply Forall_cons in Hq2 as [Hone Hq2].
  assert (Hle : le_node zero_item one_item).
  { apply Hmin. rewrite Hg1, Hg2. right. left. }
  apply IH in Hloop; [done|by apply put_ordered|].
  eapply Forall_proper_perm; [symmetry; apply put_perm|].
  constructor; [by apply Hmerge|done].
Qed.

Lemma grow_trie_invariant (P : HuffmanNode -> Prop) (q q' : PriorityQueue) root :
  (forall zero_item one_item, P zero_item -> P one_item ->
     le_node zero_item one_item -> P (merge zero_item one_item)) ->
  heap_ordered q -> Forall P q ->
  grow_trie q = Some (root, q') -> P root.
Proof.
  intros Hmerge Ho Hq. unfold grow_trie.
  destruct (grow_trie_loop _ _) as [q1|] eqn:Hloop; [|done]. simpl.
  intros Hget. apply get_perm in Hget.
  apply (grow_trie_loop_invariant P) in Hloop; [|done..].
  pose proof (Forall_proper_perm _ _ _ Hget Hloop) as Hq1.
  by apply Forall_cons in Hq1 as [? _].
Qed.

Lemma corpus_leaves_Forall (P : HuffmanNode -> Prop) chars corpus :
  (forall c f, P (leaf c f)) -> Forall P (initial_leaves chars corpus).
Proof.
  intros Hleaf.
  apply (Forall_proper_perm _ (corpus_leaves chars corpus));
    [by rewrite initial_leaves_perm|].
  constructor; [apply Hleaf|]. apply Forall_fmap, Forall_forall.
  intros c _. apply Hleaf.
Qed.

(** Every node of the trie that [__init__] keeps was made by a merge. *)
Lemma init_root_merged chars corpus root q' :
  grow_trie (initial_leaves chars corpus) = Some (root, q') ->
  every_node merged root.
Proof.
  apply grow_trie_invariant.
  - intros z o Hz Ho Hle. apply every_node_merge; [|done..].
    unfold merged, merge. simpl. by split_and!.
  - apply initial_leaves_ordered.
  - apply corpus_leaves_Forall. intros c f. by apply every_node_leaf.
Qed.

#[local] Instance sum_freq_proper : Proper ((≡ₚ) ==> (=)) sum_freq.
Proof.
  intros l k Hperm. unfold sum_freq.
  induction Hperm as [|x l k _ IH|x y l|l k m _ IH1 _ IH2]; simpl; lia.
Qed.

Lemma sum_freq_app l k : sum_freq (l ++ k) = sum_freq l + sum_freq k.
Proof. unfold sum_freq. induction l as [|n l IH]; simpl; lia. Qed.

(** The frequency of a merged node is the sum of the frequencies of the
    leaves below it. *)
Lemma merged_freq node :
  every_node merged node -> freq node = sum_freq (leaves_of node).
Proof.
  induction node as [c f zero one IHz IHo] using HuffmanNode_rect'.
  intros (Hm & Hz & Ho). unfold merged in Hm. simpl in Hm.
  destruct zero as [z|], one as [o|]; try done.
  - destruct Hm as (Hf & _ & _). simpl in *.
    rewrite leaves_of_merge, sum_freq_app, <- IHz, <- IHo; done.
  - unfold leaves_of, sum_freq. simpl. lia.
Qed.

Lemma merged_proper node : every_node merged node -> proper node.
Proof.
  induction node as [c f zero one IHz IHo] using HuffmanNode_rect'.
  intros (Hm & Hz & Ho). unfold merged in Hm. simpl in Hm.
  destruct zero as [z|], one as [o|]; try done.
  simpl in *. split; auto.
Qed.

(** The counts of the enumerated characters add up to the length of the
    corpus. *)
Lemma sum_indicator (chars : list ascii) (d : ascii) :
  NoDup chars -> d ∈ chars ->
  foldr (fun c acc => (if decide (d = c) then 1 else 0) + acc) 0 chars = 1.
Proof.
  induction chars as [|c chars IH]; intros Hnd Hd.
  { by apply elem_of_nil in Hd. }
  apply NoDup_cons in Hnd as [Hc Hnd]. simpl.
  destruct (decide (d = c)) as [->|Hne].
  - assert (foldr (fun c0 acc => (if decide (c = c0) then 1 else 0) + acc) 0 chars
            = 0) as ->; [|done].
    clear IH Hnd Hd. induction chars as [|e chars IH]; [done|].
    apply not_elem_of_cons in Hc as [Hce Hc]. simpl.
    rewrite decide_False by done. by rewrite IH.
  - apply elem_of_cons in Hd as [?|Hd]; [done|]. by rewrite IH.
Qed.

Lemma sum_count (chars : list ascii) (corpus : string) :
  NoDup chars -> Forall (fun c => c ∈ chars) (list_ascii_of_string corpus) ->
  foldr (fun c acc => count corpus c + acc) 0 chars = Z.of_nat (len corpus).
Proof.
  intros Hnd. induction corpus as [|d rest IH]; intros Hall.
  - simpl. induction chars as [|c chars IHc]; [done|].
    apply NoDup_cons in Hnd as [_ Hnd]. simpl. by rewrite IHc.
  - simpl in Hall. apply Forall_cons in Hall as [Hd Hall].
    cbn [count len String.length].
    assert (Hsplit : forall l,
               foldr (fun c acc =>
                        (if decide (d = c) then 1 else 0) + count rest c + acc) 0 l
               = foldr (fun c acc => (if decide (d = c) then 1 else 0) + acc) 0 l
                 + foldr (fun c acc => count rest c + acc) 0 l).
    { induction l as [|c l IHl]; simpl; lia. }
    rewrite Hsplit, sum_indicator, IH by done. unfold len. lia.
Qed.

Lemma sum_freq_corpus_leaves chars corpus :
  enumerates chars corpus ->
  sum_freq (corpus_leaves chars corpus) = Z.of_nat (len corpus) + 1.
Proof.
  intros (Hnd & _ & Hall). unfold corpus_leaves, sum_freq. simpl.
  rewrite <- (sum_count chars corpus Hnd Hall).
  assert (forall l, foldr (fun n acc => freq n + acc) 0
                      ((fun item => leaf item (count corpus item)) <$> l)
                    = foldr (fun c acc => count corpus c + acc) 0 l) as ->.
  { induction l as [|c l IHl]; [done|]. rewrite fmap_cons. simpl. by rewrite IHl. }
  lia.
Qed.

Lemma str_lt_spec a b :
  str_lt a b = false <-> (N_of_ascii b <= N_of_ascii a)%N.
Proof. unfold str_lt. rewrite N.ltb_ge. done. Qed.

(** The character of a merged node is the least character of the leaves
    below it. *)
Lemma merged_char node :
  every_node merged node ->
  (exists l, l ∈ leaves_of node /\ char l = char node)
  /\ forall l, l ∈ leaves_of node -> str_lt (char l) (char node) = false.
Proof.
  induction node as [c f zero one IHz IHo] using HuffmanNode_rect'.
  intros (Hm & Hz & Ho). unfold merged in Hm. simpl in Hm.
  destruct zero as [z|], one as [o|]; try done.
  - destruct Hm as (_ & Hc & _). simpl in *.
    destruct (IHz Hz) as [(lz & Hlz & Hcz) Hminz].
    destruct (IHo Ho) as [(lo & Hlo & Hco) Hmino].
    rewrite leaves_of_merge. subst c. unfold str_gt.
    destruct (str_lt (char o) (char z)) eqn:Hcmp.
    + split.
      * exists lo. split; [|done]. apply elem_of_app. by right.
      * intros l [Hl|Hl]%elem_of_app.
        -- apply Hminz in Hl. apply str_lt_spec in Hl. apply str_lt_spec.
           unfold str_lt in Hcmp. apply N.ltb_lt in Hcmp. lia.
        -- by apply Hmino.
    + split.
      * exists lz. split; [|done]. apply elem_of_app. by left.
      * intros l [Hl|Hl]%elem_of_app.
        -- by apply Hminz.
        -- apply Hmino in Hl. apply str_lt_spec in Hl, Hcmp.
           apply str_lt_spec. lia.
  - split.
    + exists (leaf c f). split; [|done]. unfold leaves_of. simpl. left.
    + intros l Hl. unfold leaves_of in Hl. simpl in Hl.
      apply list_elem_of_singleton in Hl as ->. simpl.
      apply str_lt_spec. lia.
Qed.

(** ** The trie of a corpus that is not empty *)

(** The constructor empties the queue [self.leaves] into the trie: the
    leaves of [_trie_root] are the sentinel with frequency 1 and every
    enumerated character with its count, each once. *)
Theorem trie_leaves (chars : list ascii) (corpus : string) :
  corpus <> EmptyString ->
  exists codec root,
    __init__ chars corpus = Some codec
    /\ _trie_root codec = Some root
    /\ leaves codec = []
    /\ leaves_of root ≡ₚ corpus_leaves chars corpus
    /\ length (leaves_of root) = S (length chars).
Proof.
  intros Hne.
  destruct (init_nonempty chars corpus Hne) as (root & _ & Hleaves & Hinit).
  eexists _, root. split; [exact Hinit|]. simpl. split_and!; [done..|].
  rewrite Hleaves. unfold corpus_leaves. simpl. by rewrite length_fmap.
Qed.

Lemma trie_leaves_witness :
  exists codec root,
    __init__ ["B"; "A"]%char "ABA" = Some codec
    /\ _trie_root codec = Some root
    /\ leaves codec = []
    /\ leaves_of root ≡ₚ corpus_leaves ["B"; "A"]%char "ABA"
    /\ length (leaves_of root) = S (length ["B"; "A"]%char).
Proof. apply (trie_leaves ["B"; "A"]%char "ABA"). discriminate. Defined.

(** The trie is strictly binary with an inner root, and every inner node
    carries the sum of its children's frequencies, the smaller of their
    characters, and a [one_child] that is not [<] its [zero_child]. *)
Theorem trie_nodes_merged (chars : list ascii) (corpus : string) :
  enumerates chars corpus -> corpus <> EmptyString ->
  exists codec root,
    __init__ chars corpus = Some codec
    /\ _trie_root codec = Some root
    /\ is_leaf root = false
    /\ proper root
    /\ every_node merged root.
Proof.
  intros He Hne.
  destruct (init_nonempty chars corpus Hne) as (root & Hgrow & Hleaves & Hinit).
  pose proof (init_root_merged _ _ _ _ Hgrow) as Hmerged.
  eexists _, root. split; [exact Hinit|]. simpl.
  split_and!; [done| |by apply merged_proper|done].
  by apply (init_root_inner chars corpus).
Qed.

Lemma trie_nodes_merged_witness :
  exists codec root,
    __init__ ["B"; "A"]%char "ABA" = Some codec
    /\ _trie_root codec = Some root
    /\ is_leaf root = false
    /\ proper root
    /\ every_node merged root.
Proof.
  apply (trie_nodes_merged ["B"; "A"]%char "ABA").
  - apply (bool_decide_unpack _). vm_compute. exact I.
  - discriminate.
Defined.

(** The frequency of the root is the length of the corpus plus one, the
    one being the sentinel. *)
Theorem trie_root_freq (chars : list ascii) (corpus : string) :
  enumerates chars corpus -> corpus <> EmptyString ->
  exists codec root,
    __init__ chars corpus = Some codec
    /\ _trie_root codec = Some root
    /\ freq root = Z.of_nat (len corpus) + 1.
Proof.
  intros He Hne.
  destruct (init_nonempty chars corpus Hne) as (root & Hgrow & Hleaves & Hinit).
  pose proof (init_root_merged _ _ _ _ Hgrow) as Hmerged.
  eexists _, root. split; [exact Hinit|]. simpl. split; [done|].
  by rewrite (merged_freq root Hmerged), Hleaves, sum_freq_corpus_leaves.
Qed.

Lemma trie_root_freq_witness :
  exists codec root,
    __init__ ["B"; "A"]%char "ABA" = Some codec
    /\ _trie_root codec = Some root
    /\ freq root = Z.of_nat (len "ABA") + 1.
Proof.
  apply (trie_root_freq ["B"; "A"]%char "ABA").
  - apply (bool_decide_unpack _). vm_compute. exact I.
  - discriminate.
Defined.

(** The character of the root is the least of the sentinel and the
    characters of the corpus. *)
Theorem trie_root_char (chars : list ascii) (corpus : string) :
  enumerates chars corpus -> corpus <> EmptyString ->
  exists codec root,
    __init__ chars corpus = Some codec
    /\ _trie_root codec = Some root
    /\ (char root = ETB_CHAR \/ str_in (char root) corpus)
    /\ str_lt ETB_CHAR (char root) = false
    /\ forall c, str_in c corpus -> str_lt c (char root) = false.
Proof.
  intros He Hne.
  destruct (init_nonempty chars corpus Hne) as (root & Hgrow & Hleaves & Hinit).
  pose proof (init_root_merged _ _ _ _ Hgrow) as Hmerged.
  destruct (merged_char root Hmerged) as [(l & Hl & Hc) Hmin].
  assert (Hin : forall c, c = ETB_CHAR \/ c ∈ chars ->
                          exists l, l ∈ leaves_of root /\ char l = c).
  { intros c [->|Hc'].
    - exists (leaf ETB_CHAR 1). split; [|done]. rewrite Hleaves. left.
    - exists (leaf c (count corpus c)). split; [|done]. rewrite Hleaves.
      right. apply list_elem_of_fmap. eauto. }
  eexists _, root. split; [exact Hinit|]. simpl. split_and!; [done| | |].
  - rewrite Hleaves in Hl. unfold corpus_leaves in Hl.
    apply elem_of_cons in Hl as [->|Hl]; [by left|].
    apply list_elem_of_fmap in Hl as (c & -> & Hc'). right.
    rewrite <- Hc. simpl. by apply (enumerates_elem _ _ He).
  - destruct (Hin ETB_CHAR) as (l' & Hl' & <-); [by left|]. by apply Hmin.
  - intros c Hc'. destruct (Hin c) as (l' & Hl' & <-); [|by apply Hmin].
    right. by apply (enumerates_elem _ _ He).
Qed.

Lemma trie_root_char_witness :
  exists codec root,
    __init__ ["B"; "A"]%char "ABA" = Some codec
    /\ _trie_root codec = Some root
    /\ (char root = ETB_CHAR \/ str_in (char root) "ABA")
    /\ str_lt ETB_CHAR (char root) = false
    /\ forall c, str_in c "ABA" -> str_lt c (char root) = false.
Proof.
  apply (trie_root_char ["B"; "A"]%char "ABA").
  - apply (bool_decide_unpack _). vm_compute. exact I.
  - discriminate.
Defined.

(** ** The encoding map of a corpus that is not empty *)

Lemma leaf_paths_nonempty node byte :
  proper node -> (0 < length (leaf_paths node byte))%nat.
Proof.
  revert byte. induction node as [c f zero one IHz IHo] using HuffmanNode_rect'.
  intros byte Hproper. destruct zero as [z|], one as [o|]; try done.
  - destruct Hproper as [Hpz _]. rewrite leaf_paths_unfold. simpl.
    rewrite length_app. pose proof (IHz (byte +:+ "0") Hpz). lia.
  - simpl. lia.
Qed.

(** In a strictly binary trie a leaf is never deeper than the number of the
    other leaves. *)
Lemma leaf_paths_depth node byte e :
  proper node -> e ∈ leaf_paths node byte ->
  (len e.2 + 1 <= len byte + length (leaf_paths node byte))%nat.
Proof.
  revert byte. induction node as [c f zero one IHz IHo] using HuffmanNode_rect'.
  intros byte Hproper He.
  destruct zero as [z|], one as [o|]; try done.
  - destruct Hproper as [Hpz Hpo].
    rewrite leaf_paths_unfold in He |- *. simpl in He |- *.
    rewrite length_app.
    pose proof (leaf_paths_nonempty z (byte +:+ "0") Hpz).
    pose proof (leaf_paths_nonempty o (byte +:+ "1") Hpo).
    apply elem_of_app in He as [He|He].
    + apply (IHz _ Hpz) in He. rewrite len_app in He. simpl in He. lia.
    + apply (IHo _ Hpo) in He. rewrite len_app in He. simpl in He. lia.
  - simpl in He. apply list_elem_of_singleton in He as ->. simpl. lia.
Qed.

(** The map has an entry for the sentinel and for every character of the
    corpus, and for no other character.  Every codeword is a string of 0s
    and 1s, is not empty, and is no longer than the number of distinct
    characters of the corpus; two characters never share a codeword. *)
Theorem encoding_map_entries (chars : list ascii) (corpus : string) :
  enumerates chars corpus -> corpus <> EmptyString ->
  exists codec, __init__ chars corpus = Some codec
    /\ (forall c, is_Some (get_encoding_map codec !! c)
                  <-> c = ETB_CHAR \/ str_in c corpus)
    /\ (forall c w, get_encoding_map codec !! c = Some w ->
          is_bits w /\ (0 < len w <= length chars)%nat)
    /\ (forall c1 c2 w, get_encoding_map codec !! c1 = Some w ->
          get_encoding_map codec !! c2 = Some w -> c1 = c2).
Proof.
  intros He Hne.
  destruct (init_nonempty chars corpus Hne) as (root & Hgrow & Hleaves & Hinit).
  pose proof (init_root_proper _ _ _ Hgrow) as Hproper.
  pose proof (init_root_inner _ _ _ He Hne Hleaves) as Hinner.
  eexists. split; [exact Hinit|]. unfold get_encoding_map. simpl. split_and!.
  - intros c. rewrite (init_entries chars corpus root c Hleaves).
    by rewrite (enumerates_elem _ _ He).
  - intros c w Hw.
    pose proof (codeword_bits root c) as Hbits.
    unfold codeword in Hbits. rewrite Hw in Hbits. split; [done|].
    apply create_encoding_map_leaf in Hw as (i & e & Hi & _ & <-).
    apply list_elem_of_lookup_2 in Hi.
    pose proof (leaf_paths_inner_nonempty root e Hinner Hi).
    pose proof (leaf_paths_depth root EmptyString e Hproper Hi) as Hd.
    assert (length (leaf_paths root EmptyString) = S (length chars)) as Hlen.
    { rewrite <- (length_fmap fst). fold (leaves_of root).
      rewrite Hleaves. unfold corpus_leaves. simpl. by rewrite length_fmap. }
    rewrite Hlen in Hd. simpl in Hd. lia.
  - intros c1 c2 w H1 H2. destruct (decide (c1 = c2)) as [|Hc]; [done|].
    destruct (create_encoding_map_prefix_code root EmptyString c1 c2 w w Hc H1 H2).
    apply is_prefix_refl.
Qed.

Lemma encoding_map_entries_witness :
  exists codec, __init__ ["B"; "A"]%char "ABA" = Some codec
    /\ (forall c, is_Some (get_encoding_map codec !! c)
                  <-> c = ETB_CHAR \/ str_in c "ABA")
    /\ (forall c w, get_encoding_map codec !! c = Some w ->
          is_bits w /\ (0 < len w <= length ["B"; "A"]%char)%nat)
    /\ (forall c1 c2 w, get_encoding_map codec !! c1 = Some w ->
          get_encoding_map codec !! c2 = Some w -> c1 = c2).
Proof.
  apply (encoding_map_entries ["B"; "A"]%char "ABA").
  - apply (bool_decide_unpack _). vm_compute. exact I.
  - discriminate.
Defined.

(** ** The order of the nodes *)

(** [__lt__] is a strict order on the pairs (frequency, character): no node
    is below itself, the order is transitive, and two nodes neither of which
    is below the other have the same frequency and the same character.
    [__eq__] looks at the frequency only: it holds of two nodes of equal
    frequency and different characters, one of which is below the other. *)
Theorem lt_strict_order :
  (forall a, __lt__ a a = false)
  /\ (forall a b c, __lt__ a b = true -> __lt__ b c = true -> __lt__ a c = true)
  /\ (forall a b, __lt__ a b = false -> __lt__ b a = false ->
        freq a = freq b /\ char a = char b)
  /\ (forall a b, freq a = freq b -> char a <> char b ->
        __eq__ a b = true /\ (__lt__ a b = true \/ __lt__ b a = true)).
Proof.
  split_and!.
  - intros a. apply le_node_refl.
  - intros a b c. rewrite !lt_spec. lia.
  - intros a b Hab Hba. split.
    + apply le_spec in Hab, Hba. lia.
    + symmetry. by apply le_node_antisym_char.
  - intros a b Hf Hc. split; [by apply Z.eqb_eq|].
    destruct (__lt__ a b) eqn:Hab; [by left|].
    destruct (__lt__ b a) eqn:Hba; [by right|].
    destruct Hc. symmetry. by apply le_node_antisym_char.
Qed.

(** ** The size of the output of [compress_message] *)

Lemma len_concat_str (l : list string) :
  Forall (fun s => len s = 8%nat) l -> len (concat_str l) = (8 * length l)%nat.
Proof.
  induction l as [|s l IH]; intros H8; [done|].
  apply Forall_cons in H8 as [Hs H8].
  unfold concat_str in *. cbn [foldr length]. rewrite len_app, Hs, IH by done.
  lia.
Qed.

(** The number of bytes that [compress_message] returns, from the number
    [bits] of bits of the codeword stream: one more than the full bytes of
    the stream off a byte boundary, one less than them on a boundary. *)
Theorem compress_message_size (self : ReusableHuffman) (message : string) :
  let bits := len (codeword_stream (get_encoding_map self) message) in
  length (compress_message self message)
  = if decide (bits = 0)%nat then 1%nat
    else if decide (bits mod 8 = 0)%nat then (bits / 8 - 1)%nat
         else (bits / 8 + 1)%nat.
Proof.
  intros bits. unfold compress_message.
  rewrite fold_add_char_codewords, codewords_sentinel.
  destruct (add_bit_fold (codeword_stream (get_encoding_map self) message)
              EmptyString [])
    as (bitstr & final & Hfold & Hcat & Hlen & H8 & _); [simpl; lia|].
  rewrite Hfold. apply (f_equal len) in Hcat.
  change (concat_str []) with EmptyString in Hcat.
  rewrite !str_app_nil_l, len_app in Hcat. fold bits in Hcat.
  rewrite len_concat_str in Hcat by (apply H8; constructor).
  rewrite tail_len_spec in Hlen. change (len EmptyString) with 0%nat in Hlen.
  rewrite Nat.add_0_l in Hlen. fold bits in Hlen.
  unfold bitstrings_to_bytes. rewrite length_map.
  clearbody bits.
  destruct (decide (bits = 0)%nat) as [Hz|Hnz].
  - assert ((len bitstr <? 8)%nat = true) as -> by (apply Nat.ltb_lt; lia).
    rewrite length_app. simpl. lia.
  - destruct (decide (bits mod 8 = 0)%nat) as [Hm|Hm].
    + assert ((len bitstr <? 8)%nat = false) as -> by (apply Nat.ltb_ge; lia).
      lia.
    + assert ((len bitstr <? 8)%nat = true) as -> by (apply Nat.ltb_lt; lia).
      rewrite length_app. cbn [length]. lia.
Qed.

(** ** The codec of the empty corpus *)

Lemma known_no_sentinel message :
  ~ str_in ETB_CHAR message ->
  known {[ETB_CHAR := "0"]} message = EmptyString.
Proof.
  unfold str_in. induction message as [|c rest IH]; [done|]. simpl.
  rewrite not_elem_of_cons. intros [Hc Hrest].
  rewrite lookup_singleton_ne by done. by apply IH.
Qed.

Lemma compress_message_known (self : ReusableHuffman) (message : string) :
  compress_message self message
  = compress_message self (known (get_encoding_map self) message).
Proof.
  unfold compress_message, str_add.
  rewrite !list_ascii_of_string_app, !fold_left_app.
  by rewrite <- fold_add_char_known.
Qed.

(** The codec of the empty corpus knows no character but the sentinel: it
    compresses every message without a sentinel to the single byte 0. *)
Theorem empty_corpus_compress (chars : list ascii) (message : string) :
  ~ str_in ETB_CHAR message ->
  exists codec, __init__ chars EmptyString = Some codec
    /\ compress_message codec message = [x00].
Proof.
  intros Hm. eexists. split; [apply init_empty|].
  rewrite compress_message_known. unfold get_encoding_map. simpl.
  by rewrite known_no_sentinel.
Qed.

Lemma empty_corpus_compress_witness :
  exists codec, __init__ [] EmptyString = Some codec
    /\ compress_message codec "hello" = [x00].
Proof.
  apply (empty_corpus_compress [] "hello").
  apply (bool_decide_unpack _). vm_compute. exact I.
Defined.

(** ** What [decompress] reads from a bit stream *)


Lemma str_in_cons (c x : ascii) (s : string) :
  str_in c (String x s) <-> c = x \/ str_in c s.
Proof. unfold str_in. simpl. apply elem_of_cons. Qed.

Lemma str_in_nil (c : ascii) : ~ str_in c EmptyString.
Proof. unfold str_in. simpl. apply not_elem_of_nil. Qed.


(** The codewords of any message are read back as the characters that have a
    codeword, and reading stops at the first sentinel. *)
Lemma decompress_codewords_any root message rest decoded_msg :
  proper root -> is_leaf root = false ->
  is_Some (create_encoding_map_node root EmptyString !! ETB_CHAR) ->
  decompress_loop root
    (codewords (create_encoding_map_node root EmptyString) message +:+ rest)
    root decoded_msg
  = if decide (str_in ETB_CHAR message)
    then decoded_msg
         +:+ decoded (create_encoding_map_node root EmptyString) message
    else decompress_loop root rest root
           (decoded_msg
            +:+ decoded (create_encoding_map_node root EmptyString) message).
Proof.
  intros Hproper Hinner [wetb Hetb]. revert decoded_msg.
  induction message as [|c message IH]; intros decoded_msg.
  { rewrite decide_False by apply str_in_nil.
    by rewrite str_app_nil_l, str_app_nil_r. }
  cbn [codewords]. unfold decoded. cbn [before_sentinel].
  destruct (decide (c = ETB_CHAR)) as [->|Hc].
  - rewrite decide_True by (apply str_in_cons; by left).
    unfold codeword at 1. rewrite Hetb. simpl.
    rewrite str_app_assoc, (decompress_codeword root ETB_CHAR wetb) by done.
    by rewrite decide_True, str_app_nil_r.
  - cbn [known]. unfold codeword at 1.
    destruct (create_encoding_map_node root EmptyString !! c) as [w|] eqn:Hw;
      simpl.
    + rewrite str_app_assoc, (decompress_codeword root c w) by done.
      rewrite decide_False by done. rewrite IH. unfold decoded, str_add.
      rewrite !str_app_assoc, str_app_cons, str_app_nil_l.
      destruct (decide (str_in ETB_CHAR message)) as [Hm|Hm].
      * by rewrite decide_True by (apply str_in_cons; by right).
      * rewrite decide_False; [done|].
        intros [?|?]%str_in_cons; [by apply Hc|by apply Hm].
    + rewrite str_app_nil_l, IH. unfold decoded.
      destruct (decide (str_in ETB_CHAR message)) as [Hm|Hm].
      * by rewrite decide_True by (apply str_in_cons; by right).
      * rewrite decide_False; [done|].
        intros [?|?]%str_in_cons; [by apply Hc|by apply Hm].
Qed.



(** The constructor on a corpus that is not empty: the codec it returns, with
    the facts about its trie that the decoder relies on. *)
Lemma init_codec chars corpus :
  enumerates chars corpus -> corpus <> EmptyString ->
  exists root,
    __init__ chars corpus
    = Some {| _encoding_map := create_encoding_map_node root EmptyString;
              leaves := [];
              _trie_root := Some root |}
    /\ proper root /\ is_leaf root = false
    /\ is_Some (create_encoding_map_node root EmptyString !! ETB_CHAR)
    /\ forall c, str_in c corpus ->
         is_Some (create_encoding_map_node root EmptyString !! c).
Proof.
  intros He Hne.
  destruct (init_nonempty chars corpus Hne) as (root & Hgrow & Hleaves & Hinit).
  exists root. split_and!; [done| | | |].
  - by apply (init_root_proper chars corpus).
  - by apply (init_root_inner chars corpus).
  - apply (init_entries chars corpus root ETB_CHAR Hleaves). by left.
  - intros c Hc. apply (init_entries chars corpus root c Hleaves). right.
    by apply (enumerates_elem _ _ He).
Qed.

(** [decompress] reads the bytes up to the first sentinel codeword and
    ignores what follows: bytes that start with the codeword stream of a
    message, whatever the message and whatever comes after, decode to the
    characters of the message that have a codeword, up to its first
    sentinel. *)
Theorem decompress_reads_to_sentinel (chars : list ascii) (corpus : string) :
  enumerates chars corpus -> corpus <> EmptyString ->
  exists codec, __init__ chars corpus = Some codec
    /\ forall (message : string) (compressed_msg : list byte) (rest : string),
         bit_content compressed_msg
         = codeword_stream (get_encoding_map codec) message +:+ rest ->
         decompress codec compressed_msg
         = Ok (decoded (get_encoding_map codec) message).
Proof.
  intros He Hne.
  destruct (init_codec chars corpus He Hne)
    as (root & Hinit & Hproper & Hinner & Hetb & _).
  eexists. split; [exact Hinit|].
  set (codec := {| _encoding_map := _ |}).
  change (get_encoding_map codec) with (create_encoding_map_node root EmptyString).
  intros message compressed_msg rest Hbits.
  unfold decompress. fold (bit_content compressed_msg). rewrite Hbits. simpl.
  f_equal. unfold codeword_stream.
  rewrite !str_app_assoc, decompress_codewords_any by done.
  destruct (decide (str_in ETB_CHAR message)); [by rewrite str_app_nil_l|].
  destruct Hetb as [w Hw]. unfold codeword. rewrite Hw. simpl.
  rewrite (decompress_codeword root ETB_CHAR w) by done.
  by rewrite decide_True, str_app_nil_l.
Qed.

Lemma decompress_reads_to_sentinel_witness :
  exists codec, __init__ ["B"; "A"]%char "ABA" = Some codec
    /\ forall (message : string) (compressed_msg : list byte) (rest : string),
         bit_content compressed_msg
         = codeword_stream (get_encoding_map codec) message +:+ rest ->
         decompress codec compressed_msg
         = Ok (decoded (get_encoding_map codec) message).
Proof.
  apply (decompress_reads_to_sentinel ["B"; "A"]%char "ABA").
  - apply (bool_decide_unpack _). vm_compute. exact I.
  - discriminate.
Defined.



(** ** Round trips of arbitrary messages *)



(** ** Round trips on a byte boundary *)










(** ** [grow_trie] on an arbitrary queue *)

Lemma grow_trie_loop_sum fuel (q q' : PriorityQueue) :
  grow_trie_loop fuel q = Some q' -> sum_freq q' = sum_freq q.
Proof.
  revert q. induction fuel as [|fuel IH]; intros q; [done|].
  cbn [grow_trie_loop].
  destruct (1 <? qsize q)%nat; [|by intros [= ->]].
  destruct (get q) as [[zero_item q1]|] eqn:Hget1; [|done]. simpl.
  destruct (get q1) as [[one_item q2]|] eqn:Hget2; [|done]. simpl.
  intros Hloop. apply IH in Hloop. rewrite Hloop.
  rewrite put_perm, (get_perm _ _ _ Hget1), (get_perm _ _ _ Hget2).
  unfold sum_freq. simpl. lia.
Qed.

(** [grow_trie] may be called with any queue.  On the empty queue its final
    [get] finds nothing to return.  On any other queue it ends, leaves the
    queue empty, and returns a root that has under it exactly the leaves that
    were under the nodes of the queue, and whose frequency is the sum of the
    frequencies of those nodes. *)
Theorem grow_trie_any_queue (trie : PriorityQueue) :
  (trie = [] -> grow_trie trie = None)
  /\ (trie <> [] ->
      exists root, grow_trie trie = Some (root, [])
        /\ leaves_of root ≡ₚ queue_leaves trie
        /\ freq root = sum_freq trie).
Proof.
  split; [by intros ->|]. intros Hne.
  destruct (grow_trie_leaves trie Hne) as (root & Hgrow & Hleaves).
  exists root. split_and!; [done..|].
  unfold grow_trie in Hgrow.
  destruct (grow_trie_loop (qsize trie) trie) as [q1|] eqn:Hloop; [|done].
  simpl in Hgrow. apply grow_trie_loop_sum in Hloop. rewrite <- Hloop.
  rewrite (get_perm _ _ _ Hgrow). unfold sum_freq. simpl. lia.
Qed.
